(** * ProductPortal: request cache, debounce hook and virtualized product list

    A shallow embedding of the algorithmic core of the storefront:

    - [Api]: the request de-duplication cache of [src/utils/api.ts]
      ([requestCache], [cachedRequest], the cache keys built by
      [productApi.getProducts] and [productApi.searchProducts],
      [clearApiCache]);
    - [Debounce]: the [useDebounce] hook;
    - [ProductsPage]: the infinite query of [pages/ProductsPage.tsx] and its
      [loadNextPage] callback;
    - [VirtualizedList]: the row arithmetic of
      [components/VirtualizedProductList.tsx].

    The event loop is modelled by explicit state passing: every macrotask
    (a call from the UI, a network completion, the passing of time with the
    timers that become due) is one event applied to a state record. *)

From stdpp Require Import gmap strings list fin_maps.
From Stdlib Require Import ZArith NArith Lia DecimalString Ascii.

Local Open Scope N_scope.

(** ** JavaScript strings and the built-ins the sources rely on *)

Module JS.

(** A JavaScript string is a sequence of UTF-16 code units. *)
Abbreviation jsstring := (list N).

(** A string literal of the sources (ASCII only). *)
Definition lit (s : string) : jsstring :=
  map N_of_ascii (String.list_ascii_of_string s).

(** [Number.prototype.toString] on an integer-valued number. *)
Definition number_toString (z : Z) : jsstring :=
  lit (NilZero.string_of_int (Z.to_int z)).

Definition boolean_toString (b : bool) : jsstring :=
  if b then lit "true" else lit "false".

(** ECMAScript WhiteSpace and LineTerminator code points, the characters
    removed by [String.prototype.trim]. All of them lie in the basic
    multilingual plane, so each is a single code unit. *)
Definition is_whitespace (c : N) : bool :=
  (c =? 0x9) || (c =? 0xA) || (c =? 0xB) || (c =? 0xC) || (c =? 0xD)
  || (c =? 0x20) || (c =? 0xA0) || (c =? 0x1680)
  || ((0x2000 <=? c) && (c <=? 0x200A))
  || (c =? 0x2028) || (c =? 0x2029) || (c =? 0x202F) || (c =? 0x205F)
  || (c =? 0x3000) || (c =? 0xFEFF).

Fixpoint trimStart (s : jsstring) : jsstring :=
  match s with
  | c :: s' => if is_whitespace c then trimStart s' else s
  | [] => []
  end.

Definition trimEnd (s : jsstring) : jsstring := rev (trimStart (rev s)).

Definition trim (s : jsstring) : jsstring := trimEnd (trimStart s).

(** Truthiness of a string: only the empty string is falsy. *)
Definition truthy (s : jsstring) : bool :=
  match s with [] => false | _ => true end.

(** *** [URLSearchParams.prototype.toString]

    The application/x-www-form-urlencoded serializer: every name and value
    is converted to scalar values (a lone surrogate becomes U+FFFD),
    encoded in UTF-8 and percent-encoded byte by byte. *)

Definition is_high_surrogate (c : N) : bool := (0xD800 <=? c) && (c <=? 0xDBFF).
Definition is_low_surrogate (c : N) : bool := (0xDC00 <=? c) && (c <=? 0xDFFF).

Fixpoint scalar_values (s : jsstring) : list N :=
  match s with
  | [] => []
  | c :: s' =>
      if is_high_surrogate c then
        match s' with
        | d :: s'' =>
            if is_low_surrogate d
            then (0x10000 + (c - 0xD800) * 0x400 + (d - 0xDC00)) :: scalar_values s''
            else 0xFFFD :: scalar_values s'
        | [] => [0xFFFD]
        end
      else if is_low_surrogate c then 0xFFFD :: scalar_values s'
      else c :: scalar_values s'
  end.

(** A string is well formed when it holds no lone surrogate
    ([String.prototype.isWellFormed]). [encodeURIComponent] reads its
    argument code point by code point and throws a [URIError] at an unpaired
    surrogate, that is exactly on the strings that are not well formed. *)
Fixpoint isWellFormed (s : jsstring) : bool :=
  match s with
  | [] => true
  | c :: s' =>
      if is_high_surrogate c then
        match s' with
        | d :: s'' => is_low_surrogate d && isWellFormed s''
        | [] => false
        end
      else negb (is_low_surrogate c) && isWellFormed s'
  end.

Definition utf8 (cp : N) : list N :=
  if cp <? 0x80 then [cp]
  else if cp <? 0x800 then [0xC0 + cp / 0x40; 0x80 + cp mod 0x40]
  else if cp <? 0x10000 then
    [0xE0 + cp / 0x1000; 0x80 + (cp / 0x40) mod 0x40; 0x80 + cp mod 0x40]
  else
    [0xF0 + cp / 0x40000; 0x80 + (cp / 0x1000) mod 0x40;
     0x80 + (cp / 0x40) mod 0x40; 0x80 + cp mod 0x40].

Definition hex_digit (n : N) : N :=
  if n <? 10 then 0x30 + n else 0x41 + (n - 10).

(** Bytes left as they are: ASCII alphanumerics and [*], [-], [.], [_]. *)
Definition urlencoded_safe (b : N) : bool :=
  ((0x30 <=? b) && (b <=? 0x39)) || ((0x41 <=? b) && (b <=? 0x5A))
  || ((0x61 <=? b) && (b <=? 0x7A))
  || (b =? 0x2A) || (b =? 0x2D) || (b =? 0x2E) || (b =? 0x5F).

Definition urlencode_byte (b : N) : jsstring :=
  if urlencoded_safe b then [b]
  else if b =? 0x20 then [0x2B]
  else [0x25; hex_digit (b / 16); hex_digit (b mod 16)].

Definition urlencode (s : jsstring) : jsstring :=
  concat (map urlencode_byte (concat (map utf8 (scalar_values s)))).

(** [name=value] tuples joined by [&], in the order of the list. *)
Fixpoint urlencoded_serialize (params : list (jsstring * jsstring)) : jsstring :=
  match params with
  | [] => []
  | [(n, v)] => urlencode n ++ lit "=" ++ urlencode v
  | (n, v) :: rest =>
      urlencode n ++ lit "=" ++ urlencode v ++ lit "&" ++ urlencoded_serialize rest
  end.

(** *** Plain objects used as records

    An object is the list of its own string-keyed properties in property
    order, which for names that are not array indices is insertion order;
    this is the order [Object.entries], the spread operator and the
    [URLSearchParams] constructor enumerate. Assigning to an existing
    property keeps its position. *)
Fixpoint obj_set {V} (k : jsstring) (v : V) (o : list (jsstring * V)) : list (jsstring * V) :=
  match o with
  | [] => [(k, v)]
  | (k', v') :: o' =>
      if decide (k' = k) then (k, v) :: o' else (k', v') :: obj_set k v o'
  end.

(** [{...target, ...source}]: the properties of [source] are assigned one
    after the other. *)
Definition obj_spread {V} (target source : list (jsstring * V)) : list (jsstring * V) :=
  foldl (λ acc kv, obj_set kv.1 kv.2 acc) target source.

End JS.

(** ** The request de-duplication cache of [src/utils/api.ts] *)

Module Api.
Import JS.

Section Cache.
(** [V] is the type of response bodies ([response.data]), [E] the type of
    rejection reasons. *)
Context {V E : Type}.

(** How a promise settled. *)
Inductive outcome : Type :=
| Fulfilled (v : V)
| Rejected (e : E).

(** A [requestPromise] created by [cachedRequest]. The callback given to
    [finally] closes over [key] and [cacheDuration]; [p_outcome] is [None]
    while the producer is pending. *)
Record promise : Type := Promise {
  p_key : jsstring;
  p_cacheDuration : N;
  p_outcome : option outcome;
}.

(** What a call of [cachedRequest] did, and what a timer did. *)
Inductive effect : Type :=
| Hit (key : jsstring) (p : nat)        (* [has] succeeded, [get] returned [p] *)
| Miss (key : jsstring) (p : nat)       (* [requestFn()] invoked, [p] registered by [set] *)
| Evict (key : jsstring).               (* a timer ran [requestCache.delete(key)] *)

(** The module state and the part of the environment it interacts with.
    Promises are identified by their index in [promises]. *)
Record state : Type := State {
  now : N;                                (* clock, in milliseconds *)
  requestCache : gmap jsstring nat;       (* [new Map<string, Promise<any>>()] *)
  promises : list promise;
  timers : list (N * jsstring);           (* pending [setTimeout]s: due time, key *)
  log : list effect;
}.

Definition init : state :=
  {| now := 0; requestCache := ∅; promises := []; timers := []; log := [] |}.

(** [cachedRequest(key, requestFn, cacheDuration)]. The result is the
    identifier of the cached promise: the promise of the [async] wrapper
    adopts the state of the promise it returns, so a caller observes
    exactly the outcome of that promise. *)
Definition cachedRequest (key : jsstring) (cacheDuration : N) (s : state) : nat * state :=
  match requestCache s !! key with
  | Some p =>
      (p, {| now := now s; requestCache := requestCache s; promises := promises s;
             timers := timers s; log := log s ++ [Hit key p] |})
  | None =>
      let p := length (promises s) in
      (p, {| now := now s;
             requestCache := <[key := p]> (requestCache s);
             promises := promises s ++ [Promise key cacheDuration None];
             timers := timers s;
             log := log s ++ [Miss key p] |})
  end.

(** The producer of promise [p] settles with [o]: the [then] callback maps
    the response to its body, the [finally] callback starts the eviction
    timer, and [p] takes the outcome. A promise settles only once. *)
Definition settle (p : nat) (o : outcome) (s : state) : state :=
  match promises s !! p with
  | Some (Promise key cacheDuration None) =>
      {| now := now s; requestCache := requestCache s;
         promises := <[p := Promise key cacheDuration (Some o)]> (promises s);
         timers := timers s ++ [(now s + cacheDuration, key)];
         log := log s |}
  | _ => s
  end.

Definition due (t : N) (tm : N * jsstring) : bool := tm.1 <=? t.

(** [dt] milliseconds pass; every timer that is due runs its callback
    [requestCache.delete(key)]. *)
Definition tick (dt : N) (s : state) : state :=
  let t := now s + dt in
  let fired := filter (λ tm, due t tm = true) (timers s) in
  {| now := t;
     requestCache := foldr (λ tm m, delete tm.2 m) (requestCache s) fired;
     promises := promises s;
     timers := filter (λ tm, due t tm = false) (timers s);
     log := log s ++ map (λ tm, Evict tm.2) fired |}.

(** [clearApiCache()]. *)
Definition clearApiCache (s : state) : state :=
  {| now := now s; requestCache := ∅; promises := promises s;
     timers := timers s; log := log s |}.

Inductive event : Type :=
| Call (key : jsstring) (cacheDuration : N)
| Settle (p : nat) (o : outcome)
| Tick (dt : N)
| Clear.

Definition step (s : state) (e : event) : state :=
  match e with
  | Call key d => (cachedRequest key d s).2
  | Settle p o => settle p o s
  | Tick dt => tick dt s
  | Clear => clearApiCache s
  end.

Definition run (evs : list event) (s : state) : state := foldl step s evs.

(** The promises handed to the callers of [cachedRequest] during [evs],
    in call order. *)
Fixpoint answers (evs : list event) (s : state) : list (jsstring * nat) :=
  match evs with
  | [] => []
  | e :: evs' =>
      match e with
      | Call key d => [(key, (cachedRequest key d s).1)]
      | _ => []
      end ++ answers evs' (step s e)
  end.

(** Number of times the producer was invoked for [key]. *)
Definition is_miss (key : jsstring) (e : effect) : bool :=
  match e with Miss k _ => bool_decide (k = key) | _ => false end.

Definition invocations (key : jsstring) (s : state) : nat :=
  length (filter (λ e, is_miss key e = true) (log s)).

Definition elapsed (evs : list event) : N :=
  foldr (λ e acc, match e with Tick dt => dt + acc | _ => acc end) 0 evs.

Definition is_clear (e : event) : bool :=
  match e with Clear => true | _ => false end.

Definition settles (p : nat) (e : event) : bool :=
  match e with Settle q _ => bool_decide (q = p) | _ => false end.

Definition calls (key : jsstring) (e : event) : bool :=
  match e with Call k _ => bool_decide (k = key) | _ => false end.

Definition clear_free (evs : list event) : bool :=
  forallb (λ e, negb (is_clear e)) evs.

(** The producer of [p] does not settle during [evs]. *)
Definition pending_during (p : nat) (evs : list event) : bool :=
  forallb (λ e, negb (settles p e)) evs.

Definition no_calls (key : jsstring) (evs : list event) : bool :=
  forallb (λ e, negb (calls key e)) evs.

(** The outcome a caller holding promise [p] observes in state [s]. *)
Definition observed (p : nat) (s : state) : option outcome :=
  pr ← promises s !! p; p_outcome pr.

(** The invariant of the executions in which [clearApiCache] is not used:
    a pending promise is the entry of its key, a timer belongs to the
    settled entry of its key, and there is one timer per key at most. *)
Record inv (s : state) : Prop := Inv {
  inv_pending : ∀ p key d,
    promises s !! p = Some (Promise key d None) → requestCache s !! key = Some p;
  inv_timer : ∀ tm, tm ∈ timers s →
    ∃ p pr, requestCache s !! tm.2 = Some p ∧ promises s !! p = Some pr
            ∧ is_Some (p_outcome pr);
  inv_nodup : NoDup (timers s).*2;
  inv_cache : ∀ key p, requestCache s !! key = Some p → (p < length (promises s))%nat;
  inv_time : ∀ tm, tm ∈ timers s → now s ≤ tm.1;
}.

(** [p] is the pending entry of [key]. *)
Definition in_flight (key : jsstring) (p : nat) (d : N) (s : state) : Prop :=
  inv s ∧ requestCache s !! key = Some p ∧ promises s !! p = Some (Promise key d None).

(** [p] is the settled entry of [key] and its eviction timer, due at [D],
    is pending. *)
Definition cached_settled (key : jsstring) (p : nat) (o : outcome) (D : N) (s : state) : Prop :=
  inv s ∧ requestCache s !! key = Some p ∧ observed p s = Some o
  ∧ (D, key) ∈ timers s.

(** The timer started at the settlement of [p], due at [D] after a delay
    of [d], is pending, or [p] has left the cache. *)
Definition expiring (key : jsstring) (p : nat) (D d : N) (s : state) : Prop :=
  (p < length (promises s))%nat
  ∧ (((D, key) ∈ timers s ∧ now s ≤ D ∧ (0 < d → now s < D))
     ∨ requestCache s !! key ≠ Some p).

End Cache.
Arguments outcome : clear implicits.
Arguments promise : clear implicits.
Arguments state : clear implicits.
Arguments event : clear implicits.
Arguments effect : clear implicits.

(** *** [productApi.getProducts]: the cache key *)

(** The values a property of a [ProductFilters] object can hold. Numbers
    are integer-valued. *)
Inductive value : Type :=
| VUndefined
| VNull
| VString (s : jsstring)
| VNumber (z : Z)
| VBoolean (b : bool).

Definition toString (v : value) : jsstring :=
  match v with
  | VString s => s
  | VNumber z => number_toString z
  | VBoolean b => boolean_toString b
  | VUndefined => lit "undefined"       (* not reached: guarded by the caller *)
  | VNull => lit "null"                 (* not reached: guarded by the caller *)
  end.

(** [value !== undefined && value !== null]. *)
Definition defined (kv : jsstring * value) : bool :=
  match kv.2 with
  | VUndefined | VNull => false
  | _ => true
  end.

(** [Object.entries(filters).reduce((acc, [key, value]) => ..., {})]. *)
Definition filter_params (filters : list (jsstring * value)) : list (jsstring * jsstring) :=
  foldl (λ acc kv, if defined kv then obj_set kv.1 (toString kv.2) acc else acc)
        [] filters.

(** [new URLSearchParams({ page, limit, ...reduce })]. *)
Definition getProducts_params (filters : list (jsstring * value)) (page limit : Z)
  : list (jsstring * jsstring) :=
  obj_spread [(lit "page", number_toString page); (lit "limit", number_toString limit)]
             (filter_params filters).

Definition getProducts_cacheKey (filters : list (jsstring * value)) (page limit : Z) : jsstring :=
  lit "products-" ++ urlencoded_serialize (getProducts_params filters page limit).

Definition getProducts {V E} (filters : list (jsstring * value)) (page limit : Z)
    (s : state V E) : nat * state V E :=
  cachedRequest (getProducts_cacheKey filters page limit) 5000 s.

(** *** A [requestFn] that throws

    [cachedRequest] evaluates [requestFn()] on a miss only, and before
    [requestCache.set]. The producers of the other endpoints hand back the
    promise of [api.get] at once. The producer of [searchProducts] first
    evaluates [encodeURIComponent(query)], which throws when the query is not
    well formed; the exception leaves [cachedRequest], an [async] function,
    as the rejection of the promise it returns: nothing is registered, no
    request is made and no timer is started. *)
Inductive exn : Type := URIError.

Inductive completion : Type :=
| Normal (p : nat)                      (* the promise of the cache *)
| Abrupt (e : exn).                     (* [requestFn()] threw [e] *)

(** [requestFn_throws] is the exception [requestFn()] throws, if it throws. *)
Definition cachedRequest_throwing {V E} (key : jsstring) (requestFn_throws : option exn)
    (cacheDuration : N) (s : state V E) : completion * state V E :=
  match requestCache s !! key, requestFn_throws with
  | None, Some e => (Abrupt e, s)
  | _, _ => let r := cachedRequest key cacheDuration s in (Normal r.1, r.2)
  end.

(** *** [productApi.searchProducts] *)

(** What the [async] function hands back: a value it returned itself, the
    promise obtained from [cachedRequest], or a rejection with the exception
    that was thrown on the way. *)
Inductive reply (A : Type) : Type :=
| Returned (a : A)
| Awaits (p : nat)
| Raises (e : exn).
Arguments Returned {A} a.
Arguments Awaits {A} p.
Arguments Raises {A} e.

Definition searchProducts {Product E} (query : jsstring) (limit : Z)
    (s : state (list Product) E) : reply (list Product) * state (list Product) E :=
  if negb (truthy (trim query)) then (Returned [], s)
  else
    let cacheKey := lit "search-" ++ query ++ lit "-" ++ number_toString limit in
    let requestFn_throws := if isWellFormed query then None else Some URIError in
    match cachedRequest_throwing cacheKey requestFn_throws 2000 s with
    | (Normal p, s') => (Awaits p, s')
    | (Abrupt e, s') => (Raises e, s')
    end.

End Api.


(** ** The [useDebounce] hook *)

Module Debounce.

Section Hook.
Context {T : Type} `{EqDecision T}.

(** A pending [setTimeout]: its identifier, the time at which it is due and
    the [value] its callback passes to [setDebouncedValue]. *)
Record timeout : Type := Timeout {
  t_id : nat;
  t_due : N;
  t_value : T;
}.

(** One instance of the hook, with the timeouts it has pending. *)
Record state : Type := State {
  now : N;                      (* clock, in milliseconds *)
  debouncedValue : T;           (* [useState] *)
  deps : T * N;                 (* [value, delay] of the last run of the effect *)
  handler : nat;                (* the timeout the cleanup function will clear *)
  timeouts : list timeout;
  nextId : nat;
  emitted : list (N * T);       (* calls of [setDebouncedValue]: time, value *)
}.

(** First render at time [t0]: [useState(value)], then the effect runs. *)
Definition mount (t0 : N) (value : T) (delay : N) : state :=
  {| now := t0; debouncedValue := value; deps := (value, delay); handler := 0;
     timeouts := [Timeout 0 (t0 + delay) value]; nextId := 1; emitted := [] |}.

Definition clearTimeout (id : nat) (l : list timeout) : list timeout :=
  filter (λ tm, t_id tm ≠ id) l.

(** A later render with the props [value] and [delay]. When a dependency
    changed, the cleanup of the previous effect runs ([clearTimeout]) and the
    effect runs again ([setTimeout]). *)
Definition render (value : T) (delay : N) (s : state) : state :=
  if decide ((value, delay) = deps s) then s
  else
    {| now := now s; debouncedValue := debouncedValue s; deps := (value, delay);
       handler := nextId s;
       timeouts := clearTimeout (handler s) (timeouts s)
                   ++ [Timeout (nextId s) (now s + delay) value];
       nextId := S (nextId s);
       emitted := emitted s |}.

(** What the hook returns to the component. *)
Definition useDebounce (value : T) (delay : N) (s : state) : T * state :=
  (debouncedValue (render value delay s), render value delay s).

(** The component is removed: the cleanup runs. *)
Definition unmount (s : state) : state :=
  {| now := now s; debouncedValue := debouncedValue s; deps := deps s;
     handler := handler s; timeouts := clearTimeout (handler s) (timeouts s);
     nextId := nextId s; emitted := emitted s |}.

(** The callback of a timeout, run at the time it is due. *)
Definition fire (s : state) (tm : timeout) : state :=
  {| now := now s; debouncedValue := t_value tm; deps := deps s;
     handler := handler s; timeouts := timeouts s; nextId := nextId s;
     emitted := emitted s ++ [(t_due tm, t_value tm)] |}.

Definition due (t : N) (tm : timeout) : bool := t_due tm <=? t.

(** [dt] milliseconds pass without a render. *)
Definition tick (dt : N) (s : state) : state :=
  let t := now s + dt in
  foldl fire
        {| now := t; debouncedValue := debouncedValue s; deps := deps s;
           handler := handler s;
           timeouts := filter (λ tm, due t tm = false) (timeouts s);
           nextId := nextId s; emitted := emitted s |}
        (filter (λ tm, due t tm = true) (timeouts s)).

Inductive event : Type :=
| Render (value : T) (delay : N)
| Tick (dt : N)
| Unmount.

Definition step (s : state) (e : event) : state :=
  match e with
  | Render value delay => render value delay s
  | Tick dt => tick dt s
  | Unmount => unmount s
  end.

Definition run (evs : list event) (s : state) : state := foldl step s evs.

(** Milliseconds that pass in a sequence of ticks. *)
Definition total (ticks : list N) : N := foldr N.add 0 ticks.

(** Every pending timeout is the one the cleanup function would clear. *)
Definition owned (s : state) : Prop :=
  ∀ tm, tm ∈ timeouts s → t_id tm = handler s.

End Hook.
Arguments timeout : clear implicits.
Arguments state : clear implicits.
Arguments event : clear implicits.

End Debounce.

(** ** [ProductsPage]: the infinite query and [loadNextPage]

    [useInfiniteQuery] belongs to react-query (version 3), a dependency of
    the repository. The page gives it the query key, [getNextPageParam] and
    [keepPreviousData: true]; what the library does with them is modelled
    after its documented contract: there is one query per key in the query
    cache, a query whose key was never seen fetches its first page,
    [fetchNextPage] fetches the page named by [getNextPageParam],
    [hasNextPage] and [isFetchingNextPage] describe the query of the current
    key, and with [keepPreviousData] the data of the last successful result
    is returned, with its status, as long as the query of the current key has
    no data and has not failed. Cached data is taken to be fresh
    ([staleTime]) and unused queries are not collected ([cacheTime]).

    [loadNextPage] is made by [useCallback] with the dependencies
    [hasNextPage], [isFetchingNextPage] and [fetchNextPage]: the callback the
    list holds is the one of the last render of the page and tests the values
    that render saw, while [fetchNextPage], which the library keeps the same
    across renders, acts on the query as it is when the callback runs. *)

Module ProductsPage.

Section Page.
Context {Product : Type}.

(** [PaginatedResponse<Product>]: the fields the page reads. *)
Record PaginatedResponse : Type := Page {
  data : list Product;
  total : nat;
  page : nat;
  pg_hasNextPage : bool;
}.

(** [getNextPageParam: (lastPage) => lastPage.hasNextPage ? lastPage.page + 1 : undefined] *)
Definition getNextPageParam (lastPage : PaginatedResponse) : option nat :=
  if pg_hasNextPage lastPage then Some (page lastPage + 1)%nat else None.

(** [keepPreviousData: true, // Keep previous data while loading new filters] *)
Definition keepPreviousData : bool := true.

Inductive status : Type := Loading | Error | Success.

Inductive fetch : Type := Idle | FetchingFirst | FetchingNext.

(** A query of the query cache: [state.data?.pages], [state.status] and the
    fetch that is running for it, if any. *)
Record query : Type := Query {
  q_pages : option (list PaginatedResponse);
  q_status : status;
  q_fetch : fetch;
}.

(** A call of the query function,
    [productApi.getProducts(finalFilters, pageParam, 20)], that has not
    completed; [r_next] tells a next-page fetch from a first-page fetch. *)
Record request : Type := Request {
  r_key : string;
  r_next : bool;
  r_pageParam : nat;
}.

(** One mounted [ProductsPage]. [queryKey] stands for the hash of
    [['products', finalFilters]]; [deps] holds the [hasNextPage] and the
    [isFetchingNextPage] of the last render, the values its [loadNextPage]
    closes over. *)
Record state : Type := State {
  queryKey : string;
  queries : gmap string query;
  previous : option (list PaginatedResponse);   (* data of the last successful result *)
  inflight : list request;
  deps : bool * bool;
}.

Definition current (s : state) : option query := queries s !! queryKey s.

Definition is_error (st : status) : bool :=
  match st with Error => true | _ => false end.

(** The result shows the data kept from the previous key. *)
Definition isPreviousData (s : state) : bool :=
  match current s with
  | Some q =>
      keepPreviousData
      && bool_decide (q_pages q = None)
      && bool_decide (is_Some (previous s))
      && negb (is_error (q_status q))
  | None => false
  end.

(** The fields of the result of [useInfiniteQuery] that the page uses. *)
Definition result_data (s : state) : option (list PaginatedResponse) :=
  match current s with
  | Some q => if isPreviousData s then previous s else q_pages q
  | None => None
  end.

Definition result_status (s : state) : status :=
  match current s with
  | Some q => if isPreviousData s then Success else q_status q
  | None => Loading
  end.

Definition isLoading (s : state) : bool :=
  match result_status s with Loading => true | _ => false end.

Definition isError (s : state) : bool := is_error (result_status s).

Definition nextPageParam (pages : option (list PaginatedResponse)) : option nat :=
  match pages with
  | Some ps => match last ps with
               | Some lastPage => getNextPageParam lastPage
               | None => None
               end
  | None => None
  end.

Definition hasNextPage (s : state) : bool :=
  match current s with
  | Some q => bool_decide (is_Some (nextPageParam (q_pages q)))
  | None => false
  end.

Definition isFetchingNextPage (s : state) : bool :=
  match current s with
  | Some (Query _ _ FetchingNext) => true
  | _ => false
  end.

(** [data?.pages.flatMap(page => page.data) ?? []] *)
Definition products (s : state) : list Product :=
  match result_data s with
  | Some pages => flat_map data pages
  | None => []
  end.

(** The page renders: the result of [useInfiniteQuery] is read and
    [useCallback] hands out the [loadNextPage] of these values. *)
Definition rerender (s : state) : state :=
  {| queryKey := queryKey s; queries := queries s; previous := previous s;
     inflight := inflight s;
     deps := (hasNextPage s, isFetchingNextPage s) |}.

(** The first render of the page with the key [key]. *)
Definition mount (key : string) : state :=
  {| queryKey := key;
     queries := {[ key := Query None Loading FetchingFirst ]};
     previous := None;
     inflight := [Request key false 1];
     deps := (false, false) |}.             (* no page yet, no next page fetched *)

(** A query fetches its first page when an observer comes to it and it is
    new, or has failed before it had data. *)
Definition fetches_on_mount (q : option query) : bool :=
  match q with
  | None => true
  | Some (Query None _ Idle) => true
  | Some _ => false
  end.

(** [finalFilters] changes, which the page sees in a render: the observer
    moves to the query of the new key and remembers the result it showed if
    that was a success. *)
Definition setQuery (key : string) (s : state) : state :=
  if decide (key = queryKey s) then s
  else
    let kept := match result_status s with Success => result_data s | _ => None end in
    if fetches_on_mount (queries s !! key) then
      rerender
        {| queryKey := key;
           queries := <[key := Query None Loading FetchingFirst]> (queries s);
           previous := kept;
           inflight := inflight s ++ [Request key false 1];
           deps := deps s |}
    else
      rerender
        {| queryKey := key; queries := queries s; previous := kept;
           inflight := inflight s; deps := deps s |}.

(** [fetchNextPage()] of the library, on the query of the current key: the
    query function is called with the next page parameter, or with the
    default one when the query has no page yet; nothing is fetched when
    there are pages and [getNextPageParam] gave [undefined]. A fetch
    that is running for a query with pages does not hold it back: that fetch
    is superseded, the query function is called again, and the request made
    before stays in flight until it is answered. *)
Definition fetchNextPage (s : state) : state :=
  match current s with
  | Some (Query pages st f) =>
      match pages, nextPageParam pages with
      | Some (_ :: _), None => s
      | _, param =>
          {| queryKey := queryKey s;
             queries := <[queryKey s := Query pages st FetchingNext]> (queries s);
             previous := previous s;
             inflight := inflight s ++ [Request (queryKey s) true (default 1%nat param)];
             deps := deps s |}
      end
  | None => s
  end.

(** The callback of the page,
    [useCallback(() => { if (hasNextPage && !isFetchingNextPage) { fetchNextPage() } },
                 [hasNextPage, isFetchingNextPage, fetchNextPage])]:
    [hasNextPage] and [isFetchingNextPage] are the values of the render that
    made the callback, [s] is the state in which it is invoked. *)
Definition loadNextPage (hasNextPage isFetchingNextPage : bool) (s : state) : state :=
  if hasNextPage && negb isFetchingNextPage then fetchNextPage s else s.

Definition is_request (key : string) (next : bool) (r : request) : bool :=
  bool_decide (r_key r = key) && bool_decide (r_next r = next).

(** The oldest request of that kind completes. *)
Fixpoint complete (key : string) (next : bool) (l : list request) : list request :=
  match l with
  | [] => []
  | r :: l' => if is_request key next r then l' else r :: complete key next l'
  end.

(** A response arrives for [key] while no fetch is running for it: it
    answers a request whose fetch was superseded, and the library drops it. *)
Definition ignore (key : string) (s : state) : state :=
  {| queryKey := queryKey s; queries := queries s; previous := previous s;
     inflight := complete key true (inflight s); deps := deps s |}.

(** The fetch running for [key] succeeds with [pg]. *)
Definition resolve (key : string) (pg : PaginatedResponse) (s : state) : state :=
  match queries s !! key with
  | Some (Query pages st FetchingFirst) =>
      {| queryKey := queryKey s;
         queries := <[key := Query (Some [pg]) Success Idle]> (queries s);
         previous := previous s;
         inflight := complete key false (inflight s);
         deps := deps s |}
  | Some (Query pages st FetchingNext) =>
      {| queryKey := queryKey s;
         queries := <[key := Query (Some (default [] pages ++ [pg])) Success Idle]> (queries s);
         previous := previous s;
         inflight := complete key true (inflight s);
         deps := deps s |}
  | _ => ignore key s
  end.

(** The fetch running for [key] fails for good. *)
Definition reject (key : string) (s : state) : state :=
  match queries s !! key with
  | Some (Query pages st FetchingFirst) =>
      {| queryKey := queryKey s;
         queries := <[key := Query pages Error Idle]> (queries s);
         previous := previous s;
         inflight := complete key false (inflight s);
         deps := deps s |}
  | Some (Query pages st FetchingNext) =>
      {| queryKey := queryKey s;
         queries := <[key := Query pages Error Idle]> (queries s);
         previous := previous s;
         inflight := complete key true (inflight s);
         deps := deps s |}
  | _ => ignore key s
  end.

(** What happens to a mounted page. [LoadNextPage]: the list invokes the
    [loadNextPage] it was given in the last render. [Render]: the page
    renders again, as React makes it do some time after the query changed. *)
Inductive event : Type :=
| SetQuery (key : string)
| Resolve (key : string) (pg : PaginatedResponse)
| Reject (key : string)
| LoadNextPage
| Render.

Definition step (s : state) (e : event) : state :=
  match e with
  | SetQuery key => setQuery key s
  | Resolve key pg => resolve key pg s
  | Reject key => reject key s
  | LoadNextPage => loadNextPage (deps s).1 (deps s).2 s
  | Render => rerender s
  end.

Definition run (evs : list event) (s : state) : state := foldl step s evs.

(** The callback the list holds is the one a render of [s] makes. *)
Definition callback_current (s : state) : bool :=
  bool_decide (deps s = (hasNextPage s, isFetchingNextPage s)).

(** Every invocation of [loadNextPage] among [evs], run from [s], is made
    when the page has rendered since the query last changed. *)
Fixpoint up_to_date (evs : list event) (s : state) : bool :=
  match evs with
  | [] => true
  | e :: evs' =>
      match e with
      | LoadNextPage => callback_current s
      | _ => true
      end && up_to_date evs' (step s e)
  end.

(** Next-page requests in flight, whatever their query. *)
Definition all_next_in_flight (s : state) : nat :=
  length (filter (λ r, r_next r = true) (inflight s)).

Definition is_setQuery (e : event) : bool :=
  match e with SetQuery _ => true | _ => false end.

(** The query of the page does not change during [evs]. *)
Definition same_query (evs : list event) : bool :=
  forallb (λ e, negb (is_setQuery e)) evs.

(** Next-page requests in flight for the query of [key]. *)
Definition cnt (key : string) (l : list request) : nat :=
  length (filter (λ r, is_request key true r = true) l).

Definition next_in_flight (key : string) (s : state) : nat := cnt key (inflight s).

(** What the page renders below the filters. *)
Inductive view : Type :=
| ErrorState
| LoadingSpinner
| ProductList (items : list Product) (hasNext isNextPageLoading : bool)
| NoProducts.

Definition render (s : state) : view :=
  if isError s then ErrorState
  else if isLoading s then LoadingSpinner
  else match products s with
       | [] => NoProducts
       | items => ProductList items (hasNextPage s) (isFetchingNextPage s)
       end.


Definition fetching_next (q : option query) : bool :=
  match q with
  | Some (Query _ _ FetchingNext) => true
  | _ => false
  end.

(** A next-page request is in flight for a query only while the query is
    marked as fetching its next page, and then there is one. *)
Definition serialized (s : state) : Prop :=
  ∀ key, (next_in_flight key s ≤ if fetching_next (queries s !! key) then 1 else 0)%nat.

(** As long as the query of the page is the one it was mounted with, every
    request is a request of that query. *)
Definition of_query (key : string) (s : state) : Prop :=
  queryKey s = key ∧ ∀ r, r ∈ inflight s → r_key r = key.

End Page.
Arguments PaginatedResponse : clear implicits.
Arguments query : clear implicits.
Arguments state : clear implicits.
Arguments event : clear implicits.
Arguments view : clear implicits.

End ProductsPage.

(** ** [VirtualizedProductList]: rows of the virtualized grid *)

Module VirtualizedList.
Local Open Scope nat_scope.

(** Items per row by screen width; [None] stands for
    [typeof window === 'undefined']. *)
Definition itemsPerRow (innerWidth : option Z) : nat :=
  match innerWidth with
  | None => 4
  | Some width =>
      if (width <? 768)%Z then 1
      else if (width <? 1024)%Z then 2
      else if (width <? 1280)%Z then 3
      else 4
  end.

(** [Math.ceil(a / b)] on a length [a] and a positive [b], where the
    quotient of the two doubles is exact enough for [Math.ceil] to give the
    integer ceiling. *)
Definition ceil_div (a b : nat) : nat :=
  if a mod b =? 0 then a / b else S (a / b).

(** [Array.prototype.slice(start, end)] with non-negative integer bounds. *)
Definition slice {A} (l : list A) (start end_ : nat) : list A :=
  take (end_ - start) (drop start l).

Section List.
Context {Product : Type}.

Definition rowCount (products : list Product) (itemsPerRow : nat) : nat :=
  ceil_div (length products) itemsPerRow.

Definition itemCount (products : list Product) (itemsPerRow : nat) (hasNextPage : bool) : nat :=
  if hasNextPage then rowCount products itemsPerRow + 1 else rowCount products itemsPerRow.

Definition isItemLoaded (products : list Product) (itemsPerRow : nat) (index : nat) : bool :=
  index <? rowCount products itemsPerRow.

(** What a row renders: skeleton cards, or product cards followed by
    hidden placeholders that fill the row. *)
Inductive row_view : Type :=
| LoadingRow (skeletons : nat)
| ProductRow (cards : list Product) (placeholders : nat).

Definition VirtualizedRow (index : nat) (products : list Product) (itemsPerRow : nat) : row_view :=
  let startIndex := index * itemsPerRow in
  let endIndex := Nat.min (startIndex + itemsPerRow) (length products) in
  let rowProducts := slice products startIndex endIndex in
  if length products <=? startIndex then LoadingRow itemsPerRow
  else ProductRow rowProducts
         (if length rowProducts <? itemsPerRow
          then itemsPerRow - length rowProducts else 0).

End List.
Arguments row_view : clear implicits.

End VirtualizedList.

(** ** The other endpoints of [src/utils/api.ts] *)

Module Endpoints.
Import JS Api.

Definition product_key (id : jsstring) : jsstring := lit "product-" ++ id.

Definition categories_key : jsstring := lit "categories".

Definition category_key (slug : jsstring) : jsstring := lit "category-" ++ slug.

(** The key [searchProducts] builds for a query that passes its guard. *)
Definition search_key (query : jsstring) (limit : Z) : jsstring :=
  lit "search-" ++ query ++ lit "-" ++ number_toString limit.

(** [productApi.getProduct]: cached for 10 seconds. *)
Definition getProduct {V E} (id : jsstring) (s : state V E) : nat * state V E :=
  cachedRequest (product_key id) 10000 s.

(** [categoryApi.getCategories]: cached for 30 seconds. *)
Definition getCategories {V E} (s : state V E) : nat * state V E :=
  cachedRequest categories_key 30000 s.

(** [categoryApi.getCategory]: the default [cacheDuration]. *)
Definition getCategory {V E} (slug : jsstring) (s : state V E) : nat * state V E :=
  cachedRequest (category_key slug) 5000 s.

(** [prefetchData]: the request is started and its promise dropped. *)
Definition prefetch_products {V E} (filters : list (jsstring * value)) (s : state V E)
  : state V E :=
  (getProducts filters 1 20 s).2.

Definition prefetch_categories {V E} (s : state V E) : state V E :=
  (getCategories s).2.

(** Calls of [cachedRequest] for [key] among the events. *)
Definition calls_for {V E} (key : jsstring) (evs : list (event V E)) : nat :=
  length (filter (λ e, calls key e = true) evs).

(** Every entry of the cache is a promise that was created for its key. *)
Definition keyed {V E} (s : state V E) : Prop :=
  ∀ key p, requestCache s !! key = Some p →
    ∃ pr, promises s !! p = Some pr ∧ p_key pr = key.

(** [String.prototype.trim] leaves nothing of a string made of white space. *)
Definition blank (query : jsstring) : bool := forallb is_whitespace query.

End Endpoints.

(** ** The filter state of [ProductsPage] *)

Module PageFilters.
Import JS Api.

(** [useState<ProductFilters>({ sortBy: 'name', sortOrder: 'asc' })] *)
Definition initialFilters : list (jsstring * value) :=
  [(lit "sortBy", VString (lit "name")); (lit "sortOrder", VString (lit "asc"))].

(** [setFilters(prev => ({ ...prev, ...newFilters }))] *)
Definition handleFilterChange (newFilters prev : list (jsstring * value))
  : list (jsstring * value) :=
  obj_spread prev newFilters.

(** [{ ...filters, search: debouncedSearchQuery || undefined }] *)
Definition finalFilters (filters : list (jsstring * value)) (debouncedSearchQuery : jsstring)
  : list (jsstring * value) :=
  obj_set (lit "search")
          (if truthy debouncedSearchQuery then VString debouncedSearchQuery else VUndefined)
          filters.

(** The object without the property [k]. *)
Definition without (k : jsstring) (o : list (jsstring * value)) : list (jsstring * value) :=
  filter (λ kv, kv.1 ≠ k) o.

End PageFilters.

(** ** More on the [useDebounce] hook *)

Module DebounceMore.
Import Debounce.

Section Hook.
Context {T : Type} `{EqDecision T}.

(** The raw values the hook was rendered with after its first render. *)
Definition rendered (evs : list (event T)) : list T :=
  omap (λ e, match e with Render value _ => Some value | _ => None end) evs.

(** Nothing is pending, or the timeout of the last effect is. *)
Definition single (s : state T) : Prop :=
  timeouts s = [] ∨ ∃ D v, timeouts s = [Timeout (handler s) D v].

(** The values the hook can still emit and the values it has emitted are
    among [seen]. *)
Definition within (seen : list T) (s : state T) : Prop :=
  debouncedValue s ∈ seen
  ∧ (∀ tm, tm ∈ timeouts s → t_value tm ∈ seen)
  ∧ (∀ em, em ∈ emitted s → em.2 ∈ seen).

End Hook.
End DebounceMore.

(** ** More on [ProductsPage] *)

Module PageMore.
Import ProductsPage.

Section Page.
Context {Product : Type}.

(** A query that is fetching its next page has pages already. *)
Definition next_has_pages (s : state Product) : Prop :=
  ∀ key ps st, queries s !! key = Some (Query ps st FetchingNext) → is_Some ps.

(** A callback made by a render that saw [hasNextPage] true belongs to a
    query that has pages. *)
Definition callback_has_pages (s : state Product) : Prop :=
  (deps s).1 = true → ∃ q, current s = Some q ∧ is_Some (q_pages q).

(** A fetch is running for the query of the current key. *)
Definition isFetching (s : state Product) : bool :=
  match current s with
  | Some (Query _ _ Idle) | None => false
  | Some _ => true
  end.

End Page.
End PageMore.

(** ** More on the virtualized rows, and the pages of [ProductList] *)

Module ListMore.
Import VirtualizedList.
Local Open Scope nat_scope.

Section List.
Context {Product : Type}.

(** The product cards of a row. *)
Definition cards_of (r : row_view Product) : list Product :=
  match r with
  | ProductRow cards _ => cards
  | LoadingRow _ => []
  end.

(** The cells of a row: cards and placeholders, or skeletons. *)
Definition cells_of (r : row_view Product) : nat :=
  match r with
  | ProductRow cards placeholders => length cards + placeholders
  | LoadingRow skeletons => skeletons
  end.

(** The products on the rows [0 .. rows - 1], from top to bottom. *)
Definition products_on_rows (products : list Product) (itemsPerRow rows : nat)
  : list Product :=
  concat (map (λ index, cards_of (VirtualizedRow index products itemsPerRow)) (seq 0 rows)).

(** [pages/ProductList.tsx]:
    [filteredAndSortedProducts.slice((currentPage - 1) * itemsPerPage,
    currentPage * itemsPerPage)] and
    [Math.ceil(filteredAndSortedProducts.length / itemsPerPage)], for a
    current page of 1 or more. *)
Definition paginatedProducts (filteredAndSortedProducts : list Product)
    (currentPage itemsPerPage : nat) : list Product :=
  slice filteredAndSortedProducts ((currentPage - 1) * itemsPerPage)
        (currentPage * itemsPerPage).

Definition totalPages (filteredAndSortedProducts : list Product) (itemsPerPage : nat) : nat :=
  ceil_div (length filteredAndSortedProducts) itemsPerPage.

(** The page buttons: [Array.from({ length: totalPages }, (_, i) => i + 1)]. *)
Definition page_buttons (filteredAndSortedProducts : list Product) (itemsPerPage : nat)
  : list nat :=
  map (λ i, i + 1) (seq 0 (totalPages filteredAndSortedProducts itemsPerPage)).

End List.
End ListMore.

(** ** [SearchBar]: the input and the keyboard navigation of the results *)

Module SearchBar.
Import JS.
Local Open Scope Z_scope.

Section Bar.
Context {Product : Type} (name : Product → jsstring).

Record state : Type := State {
  query : jsstring;          (* [useState('')] *)
  isOpen : bool;             (* [useState(false)] *)
  selectedIndex : Z;         (* [useState(-1)] *)
}.

Definition initial : state := State [] false (-1).

Inductive key : Type := ArrowDown | ArrowUp | Enter | Escape | OtherKey.

(** [handleInputChange] *)
Definition handleInputChange (value : jsstring) (s : state) : state :=
  {| query := value; selectedIndex := -1; isOpen := (2 <=? length value)%nat |}.

(** [handleSelect(product)]; [None] stands for the [TypeError] thrown by
    [product.name] when [product] is [undefined]. The second component is
    the product passed to [onSearchSelect]. *)
Definition handleSelect (product : option Product) : option (state * option Product) :=
  match product with
  | Some p => Some ({| query := name p; isOpen := false; selectedIndex := -1 |}, Some p)
  | None => None
  end.

(** [handleKeyDown], with the [searchResults] of the render. *)
Definition handleKeyDown (k : key) (searchResults : list Product) (s : state)
  : option (state * option Product) :=
  if negb (isOpen s) || (length searchResults =? 0)%nat then Some (s, None)
  else
    match k with
    | ArrowDown =>
        Some ({| query := query s; isOpen := isOpen s;
                 selectedIndex :=
                   if selectedIndex s <? Z.of_nat (length searchResults) - 1
                   then selectedIndex s + 1 else 0 |}, None)
    | ArrowUp =>
        Some ({| query := query s; isOpen := isOpen s;
                 selectedIndex :=
                   if selectedIndex s >? 0
                   then selectedIndex s - 1 else Z.of_nat (length searchResults) - 1 |}, None)
    | Enter =>
        if selectedIndex s >=? 0
        then handleSelect (searchResults !! Z.to_nat (selectedIndex s))
        else Some (s, None)
    | Escape =>
        Some ({| query := query s; isOpen := false; selectedIndex := -1 |}, None)
    | OtherKey => Some (s, None)
    end.

Inductive event : Type :=
| Input (value : jsstring)
| Key (k : key).

(** The events of the user while the results shown are [searchResults];
    the products passed to [onSearchSelect] are collected. *)
Fixpoint run (evs : list event) (searchResults : list Product) (s : state)
  : option (state * list Product) :=
  match evs with
  | [] => Some (s, [])
  | Input value :: evs' => run evs' searchResults (handleInputChange value s)
  | Key k :: evs' =>
      match handleKeyDown k searchResults s with
      | Some (s', selected) =>
          match run evs' searchResults s' with
          | Some (s'', l) => Some (s'', option_list selected ++ l)
          | None => None
          end
      | None => None
      end
  end.

(** The state after [n] presses of the key [k]; the state is kept if a
    handler throws. *)
Fixpoint press (n : nat) (k : key) (searchResults : list Product) (s : state) : state :=
  match n with
  | O => s
  | S n' =>
      match handleKeyDown k searchResults s with
      | Some (s', _) => press n' k searchResults s'
      | None => s
      end
  end.

(** No result is selected, or one of [searchResults] is. *)
Definition in_range (searchResults : list Product) (s : state) : Prop :=
  -1 ≤ selectedIndex s < Z.of_nat (length searchResults).

End Bar.
Arguments state : clear implicits.

End SearchBar.

(** ** [useIntersectionObserver] *)

Module IntersectionObserver.

Section Hook.
(** The options of the hook that matter here, and whether
    [window.IntersectionObserver] exists; [threshold], [root] and
    [rootMargin] are taken not to change between renders. *)
Context (freezeOnceVisible supported : bool).

Record state : Type := State {
  entry : option bool;             (* [isIntersecting] of the entry of [useState] *)
  node : option nat;               (* [useState<Element | null>(null)] *)
  observed : option nat;           (* the element the connected observer observes *)
  deps : option nat * option bool; (* [node] and [frozen] at the last run of the effect *)
}.

(** [entry?.isIntersecting && freezeOnceVisible]: [undefined] without an
    entry, [false] for an entry that is not intersecting. *)
Definition frozen (s : state) : option bool :=
  match entry s with
  | None => None
  | Some false => Some false
  | Some true => Some freezeOnceVisible
  end.

(** [!!entry?.isIntersecting], the second component of the result. *)
Definition isVisible (s : state) : bool := default false (entry s).

(** The effect: the previous observer is disconnected; unless the hook is
    frozen, has no node or observers are not supported, a new observer is
    created and observes the node. *)
Definition effect (s : state) : state :=
  {| entry := entry s; node := node s;
     observed :=
       match node s with
       | Some n => if default false (frozen s) then None
                   else if supported then Some n else None
       | None => None
       end;
     deps := (node s, frozen s) |}.

(** A render: the effect runs when [node] or [frozen] changed. *)
Definition rerender (s : state) : state :=
  if decide ((node s, frozen s) = deps s) then s else effect s.

(** The first render and its effect: there is no node yet. *)
Definition mount : state :=
  {| entry := None; node := None; observed := None; deps := (None, None) |}.

(** The [ref] callback: [setNode(node)]. *)
Definition setNode (n : option nat) (s : state) : state :=
  rerender {| entry := entry s; node := n; observed := observed s; deps := deps s |}.

(** The callback of the observer, which only a connected observer calls:
    [setEntry(entry)]. *)
Definition deliver (isIntersecting : bool) (s : state) : state :=
  match observed s with
  | Some _ =>
      rerender {| entry := Some isIntersecting; node := node s; observed := observed s;
                  deps := deps s |}
  | None => s
  end.

(** The component is removed: [observer.current?.disconnect()]. *)
Definition unmount (s : state) : state :=
  {| entry := entry s; node := node s; observed := None; deps := deps s |}.

Inductive event : Type :=
| SetNode (n : option nat)
| Deliver (isIntersecting : bool)
| Unmount.

Definition step (s : state) (e : event) : state :=
  match e with
  | SetNode n => setNode n s
  | Deliver b => deliver b s
  | Unmount => unmount s
  end.

Definition run (evs : list event) (s : state) : state := foldl step s evs.

(** The observer, when there is one, observes the node of the hook, and
    the effect has seen the current [node] and [frozen]. *)
Definition attached (s : state) : Prop :=
  deps s = (node s, frozen s)
  ∧ ∀ n, observed s = Some n →
      node s = Some n ∧ supported = true ∧ default false (frozen s) = false.

End Hook.

End IntersectionObserver.
(** ** Properties of the request cache *)

Module ApiTheory.
Import JS Api.

Section Cache.
Context {V E : Type}.
Implicit Types (s : state V E) (e : event V E) (evs : list (event V E)).
Implicit Types (key : jsstring) (p : nat) (o : outcome V E).

Lemma lookup_evict (fired : list (N * jsstring)) (m : gmap jsstring nat) key :
  foldr (λ tm m, delete tm.2 m) m fired !! key
  = if decide (key ∈ fired.*2) then None else m !! key.
Proof.
  induction fired as [|tm fired IH].
  - cbn [foldr]. destruct (decide (key ∈ _)) as [H|H]; [by apply elem_of_nil in H | done].
  - cbn [foldr]. rewrite fmap_cons. destruct (decide (tm.2 = key)) as [<-|Hne].
    + rewrite lookup_delete_eq. destruct (decide (tm.2 ∈ tm.2 :: _)) as [H|H]; [done|].
      exfalso. apply H. left.
    + rewrite lookup_delete_ne by done. rewrite IH.
      destruct (decide (key ∈ fired.*2)) as [H|H];
        destruct (decide (key ∈ tm.2 :: fired.*2)) as [H'|H']; try done.
      * exfalso. apply H'. by right.
      * exfalso. apply elem_of_cons in H' as [->|H']; done.
Qed.

Lemma timers_same_key (l : list (N * jsstring)) tm tm' :
  NoDup l.*2 → tm ∈ l → tm' ∈ l → tm.2 = tm'.2 → tm = tm'.
Proof.
  induction l as [|x l IH]; intros Hnd H1 H2 Heq; [by apply elem_of_nil in H1|].
  rewrite fmap_cons in Hnd. apply NoDup_cons in Hnd as [Hx Hnd].
  apply elem_of_cons in H1 as [->|H1]; apply elem_of_cons in H2 as [->|H2]; auto.
  - exfalso. apply Hx. rewrite Heq. by apply list_elem_of_fmap_2.
  - exfalso. apply Hx. rewrite <- Heq. by apply list_elem_of_fmap_2.
Qed.

Lemma inv_init : inv (@init V E).
Proof.
  split; simpl.
  - intros p key d H. by rewrite lookup_nil in H.
  - intros tm H. by apply elem_of_nil in H.
  - constructor.
  - intros key p H. by rewrite lookup_empty in H.
  - intros tm H. by apply elem_of_nil in H.
Qed.

Lemma inv_cachedRequest s key d : inv s → inv (cachedRequest key d s).2.
Proof.
  intros [Hp Ht Hn Hc Htm]. unfold cachedRequest.
  destruct (requestCache s !! key) as [q|] eqn:Hk; simpl; [by split|].
  split; simpl.
  - intros p key' d' H.
    apply lookup_app_Some in H as [H|[Hlen H]].
    + destruct (decide (key = key')) as [->|Hne].
      * apply Hp in H. congruence.
      * rewrite lookup_insert_ne by done. eauto.
    + destruct (p - length (promises s))%nat as [|n] eqn:Hn'; simpl in H; [|by rewrite lookup_nil in H].
      injection H as <- <-. rewrite lookup_insert_eq. f_equal. lia.
  - intros tm H. destruct (Ht tm H) as (p & pr & H1 & H2 & H3).
    destruct (decide (key = tm.2)) as [->|Hne]; [congruence|].
    exists p, pr. rewrite lookup_insert_ne by done.
    split_and!; [done| |done]. by apply lookup_app_l_Some.
  - done.
  - intros key' p H. rewrite length_app. simpl.
    destruct (decide (key = key')) as [->|Hne].
    + rewrite lookup_insert_eq in H. injection H as <-. lia.
    + rewrite lookup_insert_ne in H by done. apply Hc in H. lia.
  - done.
Qed.

Lemma inv_settle s p o : inv s → inv (settle p o s).
Proof.
  intros [Hp Ht Hn Hc Htm]. unfold settle.
  destruct (promises s !! p) as [[key d [o'|]]|] eqn:Hpr; try by split.
  pose proof (Hp _ _ _ Hpr) as Hkey.
  assert (Hfresh : key ∉ (timers s).*2).
  { intros Hin. apply list_elem_of_fmap in Hin as (tm & -> & Hin).
    destruct (Ht tm Hin) as (q & pr & H1 & H2 & [o' H3]).
    assert (q = p) by congruence. subst q.
    rewrite Hpr in H2. injection H2 as <-. done. }
  split; simpl.
  - intros q key' d' H.
    destruct (decide (q = p)) as [->|Hne].
    + rewrite list_lookup_insert_eq in H by (by eapply lookup_lt_Some). done.
    + rewrite list_lookup_insert_ne in H by done. eauto.
  - intros tm H. apply elem_of_app in H as [H|H].
    + destruct (Ht tm H) as (q & pr & H1 & H2 & H3).
      destruct (decide (q = p)) as [->|Hne].
      * exists p, (Promise key d (Some o)). split_and!; [done| |by eexists].
        rewrite list_lookup_insert_eq; [done|by eapply lookup_lt_Some].
      * exists q, pr. by rewrite list_lookup_insert_ne.
    + apply list_elem_of_singleton in H as ->. simpl.
      exists p, (Promise key d (Some o)). split_and!; [done| |by eexists].
      rewrite list_lookup_insert_eq; [done|by eapply lookup_lt_Some].
  - rewrite fmap_app. apply NoDup_app. split_and!; [done| |apply NoDup_singleton].
    intros x Hx Hx'. apply list_elem_of_singleton in Hx'. by subst x.
  - intros key' q H. rewrite length_insert. eauto.
  - intros tm H. apply elem_of_app in H as [H|H]; [eauto|].
    apply list_elem_of_singleton in H as ->. simpl. lia.
Qed.

Lemma inv_tick s dt : inv s → inv (tick dt s).
Proof.
  intros [Hp Ht Hn Hc Htm]. unfold tick.
  set (t := now s + dt).
  split; simpl.
  - intros p key d H. rewrite lookup_evict.
    destruct (decide (_ ∈ _)) as [Hin|Hin]; [|eauto]. exfalso.
    apply list_elem_of_fmap in Hin as (tm & -> & Hin).
    apply list_elem_of_filter in Hin as [_ Hin].
    destruct (Ht tm Hin) as (q & pr & H1 & H2 & [o' H3]).
    pose proof (Hp _ _ _ H) as Hk. assert (q = p) by congruence. subst q.
    rewrite H in H2. injection H2 as <-. done.
  - intros tm H. apply list_elem_of_filter in H as [Hdue H].
    destruct (Ht tm H) as (q & pr & H1 & H2 & H3).
    exists q, pr. split_and!; [|done|done].
    rewrite lookup_evict. destruct (decide (_ ∈ _)) as [Hin|Hin]; [|done]. exfalso.
    apply list_elem_of_fmap in Hin as (tm' & Heq & Hin).
    apply list_elem_of_filter in Hin as [Hdue' Hin].
    assert (tm = tm') by eauto using timers_same_key. subst tm'. congruence.
  - eapply sublist_NoDup; [exact Hn|]. apply fmap_sublist, sublist_filter.
  - intros key p H. rewrite lookup_evict in H. destruct (decide (_ ∈ _)); [done|eauto].
  - intros tm H. apply list_elem_of_filter in H as [Hdue H].
    unfold due in Hdue. apply N.leb_gt in Hdue. lia.
Qed.

Lemma run_app evs evs' s : run (evs ++ evs') s = run evs' (run evs s).
Proof. unfold run. apply foldl_app. Qed.

Lemma run_cons e evs s : run (e :: evs) s = run evs (step s e).
Proof. done. Qed.

Lemma clear_free_cons e evs :
  clear_free (e :: evs) = true ↔ is_clear e = false ∧ clear_free evs = true.
Proof.
  unfold clear_free. cbn [forallb]. rewrite andb_true_iff, negb_true_iff. done.
Qed.

Lemma inv_step s e : is_clear e = false → inv s → inv (step s e).
Proof.
  destruct e; simpl; intros Hc Hs; try done;
    auto using inv_cachedRequest, inv_settle, inv_tick.
Qed.

Lemma inv_run evs s : clear_free evs = true → inv s → inv (run evs s).
Proof.
  revert s. induction evs as [|e evs IH]; intros s Hc Hs; [done|].
  apply clear_free_cons in Hc as [He Hc]. rewrite run_cons.
  apply IH; [done|]. by apply inv_step.
Qed.

Lemma now_run evs s : now (run evs s) = now s + elapsed evs.
Proof.
  revert s. induction evs as [|e evs IH]; intros s; [simpl; lia|].
  rewrite run_cons, IH. unfold elapsed. cbn [foldr].
  destruct e as [key d|p o|dt|]; simpl; try lia.
  - unfold cachedRequest. by destruct (requestCache s !! key).
  - unfold settle. by destruct (promises s !! p) as [[? ? [?|]]|].
Qed.

(** *** The producer counter *)

Lemma invocations_hit s key key' p :
  requestCache s !! key' = Some p →
  invocations key (cachedRequest key' 0 s).2 = invocations key s
  ∧ ∀ d, (cachedRequest key' d s) = (p, (cachedRequest key' d s).2)
         ∧ invocations key (cachedRequest key' d s).2 = invocations key s.
Proof.
  intros H. unfold cachedRequest, invocations. rewrite H. simpl.
  rewrite filter_app, length_app. simpl. split; [lia|]. intros d. split; [done|lia].
Qed.

Lemma invocations_miss s key d :
  requestCache s !! key = None →
  invocations key (cachedRequest key d s).2 = S (invocations key s).
Proof.
  intros H. unfold cachedRequest, invocations. rewrite H. simpl.
  rewrite filter_app, length_app. simpl.
  rewrite filter_cons_True by (simpl; by apply bool_decide_eq_true). simpl. lia.
Qed.

Lemma invocations_other s key key' d :
  key' ≠ key →
  invocations key (cachedRequest key' d s).2 = invocations key s.
Proof.
  intros Hne. unfold cachedRequest, invocations.
  destruct (requestCache s !! key'); simpl; rewrite filter_app, length_app; simpl.
  - lia.
  - rewrite filter_cons_False; [simpl; lia|]. simpl.
    rewrite bool_decide_eq_false_2; done.
Qed.

Lemma invocations_settle s key p o : invocations key (settle p o s) = invocations key s.
Proof. unfold settle. by destruct (promises s !! p) as [[? ? [?|]]|]. Qed.

Lemma invocations_tick s key dt : invocations key (tick dt s) = invocations key s.
Proof.
  unfold tick, invocations. simpl. rewrite filter_app, length_app.
  set (fired := filter _ (timers s)). clearbody fired.
  induction fired as [|tm fired IH]; simpl; [lia|].
  rewrite filter_cons_False by done. exact IH.
Qed.

(** *** What a caller observes *)

Lemma observed_settle s p key d o :
  promises s !! p = Some (Promise key d None) → observed p (settle p o s) = Some o.
Proof.
  intros H. unfold observed, settle. rewrite H. simpl.
  rewrite list_lookup_insert_eq by (by eapply lookup_lt_Some). done.
Qed.

(** A promise settles once: its outcome never changes afterwards. *)
Lemma observed_step s e p o : observed p s = Some o → observed p (step s e) = Some o.
Proof.
  unfold observed. intros H.
  destruct (promises s !! p) as [pr|] eqn:Hp; [|done]. simpl in H.
  destruct e as [key d|q o'| |]; simpl; try by rewrite Hp.
  - unfold cachedRequest. destruct (requestCache s !! key); simpl.
    + by rewrite Hp.
    + erewrite lookup_app_l_Some by done. done.
  - unfold settle. destruct (promises s !! q) as [[key d [o''|]]|] eqn:Hq;
      try by rewrite Hp.
    simpl. destruct (decide (q = p)) as [->|Hne].
    + rewrite Hp in Hq. injection Hq as ->. done.
    + rewrite list_lookup_insert_ne by done. by rewrite Hp.
Qed.

Lemma observed_run evs s p o : observed p s = Some o → observed p (run evs s) = Some o.
Proof.
  revert s. induction evs as [|e evs IH]; intros s H; [done|].
  rewrite run_cons. apply IH. by apply observed_step.
Qed.

(** *** The pending window *)

Lemma in_flight_first_call s key d :
  inv s → requestCache s !! key = None →
  in_flight key (cachedRequest key d s).1 d (cachedRequest key d s).2.
Proof.
  intros Hs Hk. split; [by apply inv_cachedRequest|].
  unfold cachedRequest. rewrite Hk. simpl. split.
  - apply lookup_insert_eq.
  - rewrite lookup_app_r by done. by rewrite Nat.sub_diag.
Qed.

Lemma in_flight_step s e key p d :
  in_flight key p d s → is_clear e = false → settles p e = false →
  in_flight key p d (step s e)
  ∧ invocations key (step s e) = invocations key s
  ∧ ∀ a, a ∈ answers [e] s → a.1 = key → a.2 = p.
Proof.
  intros (Hs & Hk & Hp) Hc Hst.
  split; [split; [by apply inv_step|]|].
  - destruct e as [key' d'|q o| |]; simpl in *; try done.
    + unfold cachedRequest. destruct (requestCache s !! key') eqn:Hk'; simpl; [done|].
      split; [|by apply lookup_app_l_Some].
      rewrite lookup_insert_ne; [done|]. intros ->. congruence.
    + apply bool_decide_eq_false in Hst.
      unfold settle. destruct (promises s !! q) as [[kq dq [oq|]]|] eqn:Hq; try done.
      simpl. split; [done|].
      rewrite list_lookup_insert_ne; done.
    + split; [|done]. rewrite lookup_evict.
      destruct (decide (_ ∈ _)) as [Hin|Hin]; [|done]. exfalso.
      apply list_elem_of_fmap in Hin as (tm & -> & Hin).
      apply list_elem_of_filter in Hin as [_ Hin].
      destruct (inv_timer s Hs tm Hin) as (q & pr & H1 & H2 & [o' H3]).
      assert (q = p) by congruence. subst q.
      rewrite Hp in H2. injection H2 as <-. done.
  - destruct e as [key' d'|q o| |]; simpl in *; try done.
    + destruct (decide (key' = key)) as [->|Hne].
      * destruct (invocations_hit s key key p Hk) as [_ Hd].
        destruct (Hd d') as [Heq Hinv]. split; [done|].
        intros a Ha _.
        apply list_elem_of_singleton in Ha as ->. simpl. by rewrite Heq.
      * split; [by apply invocations_other|].
        intros a Ha Hkey.
        apply list_elem_of_singleton in Ha as ->. done.
    + split; [apply invocations_settle|]. intros a Ha. by apply elem_of_nil in Ha.
    + split; [apply invocations_tick|]. intros a Ha. by apply elem_of_nil in Ha.
Qed.

Lemma answers_cons e evs s a :
  a ∈ answers (e :: evs) s ↔ a ∈ answers [e] s ∨ a ∈ answers evs (step s e).
Proof. cbn [answers]. rewrite app_nil_r. apply elem_of_app. Qed.

Lemma in_flight_run evs s key p d :
  in_flight key p d s → clear_free evs = true → pending_during p evs = true →
  in_flight key p d (run evs s)
  ∧ invocations key (run evs s) = invocations key s
  ∧ ∀ a, a ∈ answers evs s → a.1 = key → a.2 = p.
Proof.
  revert s. induction evs as [|e evs IH]; intros s Hs Hc Hp.
  - split_and!; [done|done|]. intros a Ha. by apply elem_of_nil in Ha.
  - apply clear_free_cons in Hc as [He Hc].
    unfold pending_during in Hp. cbn [forallb] in Hp.
    apply andb_true_iff in Hp as [Hpe Hp]. apply negb_true_iff in Hpe.
    destruct (in_flight_step s e key p d Hs He) as (Hs' & Hi & Ha).
    { by rewrite Hpe. }
    destruct (IH (step s e) Hs' Hc Hp) as (Hs'' & Hi' & Ha').
    rewrite run_cons. split_and!; [done|congruence|].
    intros a Hin Hkey. apply answers_cons in Hin as [Hin|Hin]; eauto.
Qed.

(** *** The window after settlement *)

Lemma cached_settled_start s p key d o :
  inv s → promises s !! p = Some (Promise key d None) →
  cached_settled key p o (now s + d) (settle p o s).
Proof.
  intros Hs Hp. split_and!.
  - by apply inv_settle.
  - unfold settle. rewrite Hp. simpl. by eapply inv_pending.
  - by eapply observed_settle.
  - unfold settle. rewrite Hp. simpl. apply elem_of_app. right. left.
Qed.

Lemma cached_settled_step s e key p o D :
  cached_settled key p o D s → is_clear e = false → now (step s e) < D →
  cached_settled key p o D (step s e)
  ∧ invocations key (step s e) = invocations key s
  ∧ ∀ a, a ∈ answers [e] s → a.1 = key → a.2 = p.
Proof.
  intros (Hs & Hk & Ho & Ht) Hc Hnow.
  split; [split_and!; [by apply inv_step| |by apply observed_step|]|].
  - destruct e as [key' d'|q o'|dt|]; simpl in *; try done.
    + unfold cachedRequest. destruct (requestCache s !! key') eqn:Hk'; simpl; [done|].
      rewrite lookup_insert_ne; [done|]. intros ->. congruence.
    + unfold settle. by destruct (promises s !! q) as [[kq dq [oq|]]|].
    + rewrite lookup_evict.
      destruct (decide (_ ∈ _)) as [Hin|Hin]; [|done]. exfalso.
      apply list_elem_of_fmap in Hin as (tm & Heq & Hin).
      apply list_elem_of_filter in Hin as [Hdue Hin].
      assert (tm = (D, key)) as ->.
      { eapply timers_same_key; eauto using inv_nodup. }
      unfold due in Hdue. simpl in Hdue. apply N.leb_le in Hdue. lia.
  - destruct e as [key' d'|q o'|dt|]; simpl in *; try done.
    + unfold cachedRequest. by destruct (requestCache s !! key').
    + unfold settle. destruct (promises s !! q) as [[kq dq [oq|]]|]; try done.
      simpl. apply elem_of_app. by left.
    + apply list_elem_of_filter. split; [|done].
      unfold due. simpl. apply N.leb_gt. lia.
  - destruct e as [key' d'|q o'|dt|]; simpl in *; try done.
    + destruct (decide (key' = key)) as [->|Hne].
      * destruct (invocations_hit s key key p Hk) as [_ Hd].
        destruct (Hd d') as [Heq Hinv]. split; [done|].
        intros a Ha _.
        apply list_elem_of_singleton in Ha as ->. simpl. by rewrite Heq.
      * split; [by apply invocations_other|].
        intros a Ha Hkey.
        apply list_elem_of_singleton in Ha as ->. done.
    + split; [apply invocations_settle|]. intros a Ha. by apply elem_of_nil in Ha.
    + split; [apply invocations_tick|]. intros a Ha. by apply elem_of_nil in Ha.
Qed.

Lemma elapsed_cons e evs :
  elapsed (e :: evs) = elapsed [e] + elapsed evs.
Proof. unfold elapsed. cbn [foldr]. destruct e; lia. Qed.

Lemma elapsed_app evs evs' : elapsed (evs ++ evs') = elapsed evs + elapsed evs'.
Proof.
  induction evs as [|e evs IH]; [done|].
  rewrite <- app_comm_cons, (elapsed_cons e evs), (elapsed_cons e (evs ++ evs')), IH. lia.
Qed.

Lemma cached_settled_run evs s key p o D :
  cached_settled key p o D s → clear_free evs = true → now s + elapsed evs < D →
  cached_settled key p o D (run evs s)
  ∧ invocations key (run evs s) = invocations key s
  ∧ ∀ a, a ∈ answers evs s → a.1 = key → a.2 = p.
Proof.
  revert s. induction evs as [|e evs IH]; intros s Hs Hc Ht.
  - split_and!; [done|done|]. intros a Ha. by apply elem_of_nil in Ha.
  - apply clear_free_cons in Hc as [He Hc].
    rewrite elapsed_cons in Ht.
    assert (Hnow : now (step s e) = now s + elapsed [e]).
    { change (step s e) with (run [e] s). apply now_run. }
    destruct (cached_settled_step s e key p o D Hs He) as (Hs' & Hi & Ha); [lia|].
    destruct (IH (step s e) Hs' Hc) as (Hs'' & Hi' & Ha'); [lia|].
    rewrite run_cons. split_and!; [done|congruence|].
    intros a Hin Hkey. apply answers_cons in Hin as [Hin|Hin]; eauto.
Qed.

(** *** Eviction *)

Lemma expiring_start s p key d o :
  promises s !! p = Some (Promise key d None) →
  expiring key p (now s + d) d (settle p o s).
Proof.
  intros Hp. unfold expiring, settle. rewrite Hp. simpl. split.
  - rewrite length_insert. by eapply lookup_lt_Some.
  - left. split_and!; [|lia|lia]. apply elem_of_app. right. left.
Qed.

Lemma expiring_step s e key p D d : expiring key p D d s → expiring key p D d (step s e).
Proof.
  unfold expiring. intros [Hlen H]. destruct e as [key' d'|q o'|dt|]; simpl.
  - unfold cachedRequest. destruct (requestCache s !! key') eqn:Hk'; simpl; [done|].
    split; [rewrite length_app; lia|].
    destruct (decide (key' = key)) as [->|Hne].
    + right. rewrite lookup_insert_eq. intros [= Heq]. lia.
    + by rewrite lookup_insert_ne.
  - unfold settle. destruct (promises s !! q) as [[kq dq [oq|]]|]; try done.
    simpl. split; [by rewrite length_insert|].
    destruct H as [(Ht & Hn)|H]; [left|by right].
    split; [|done]. apply elem_of_app. by left.
  - split; [done|].
    destruct H as [(Ht & Hn & Hd)|H].
    + destruct (decide (D ≤ now s + dt)) as [Hdue|Hdue].
      * right. rewrite lookup_evict.
        destruct (decide (_ ∈ _)) as [Hin|Hin]; [done|]. exfalso. apply Hin.
        change key with ((D, key).2). apply list_elem_of_fmap_2.
        apply list_elem_of_filter. split; [|done].
        unfold due. simpl. by apply N.leb_le.
      * left. split_and!; [|lia|lia].
        apply list_elem_of_filter. split; [|done].
        unfold due. simpl. apply N.leb_gt. lia.
    + right. rewrite lookup_evict. by destruct (decide (_ ∈ _)).
  - split; [done|]. right. by rewrite lookup_empty.
Qed.

Lemma expiring_run evs s key p D d : expiring key p D d s → expiring key p D d (run evs s).
Proof.
  revert s. induction evs as [|e evs IH]; intros s H; [done|].
  rewrite run_cons. by apply IH, expiring_step.
Qed.

Lemma expiring_end s key p D d :
  expiring key p D d s → D < now s ∨ (0 < d ∧ D ≤ now s) →
  requestCache s !! key ≠ Some p ∧ (p < length (promises s))%nat.
Proof. intros [Hlen [(Ht & Hn & Hd)|H]] Hnow; [lia|done]. Qed.

(** Without a call for [key], its entry can only disappear. *)
Lemma lookup_no_calls evs s key p :
  no_calls key evs = true →
  requestCache s !! key = Some p ∨ requestCache s !! key = None →
  requestCache (run evs s) !! key = Some p ∨ requestCache (run evs s) !! key = None.
Proof.
  revert s. induction evs as [|e evs IH]; intros s Hc H; [done|].
  unfold no_calls in Hc. cbn [forallb] in Hc.
  apply andb_true_iff in Hc as [He Hc]. apply negb_true_iff in He.
  rewrite run_cons. apply IH; [done|].
  destruct e as [key' d'|q o'|dt|]; simpl in *.
  - apply bool_decide_eq_false in He.
    unfold cachedRequest. destruct (requestCache s !! key'); simpl; [done|].
    by rewrite lookup_insert_ne.
  - unfold settle. by destruct (promises s !! q) as [[kq dq [oq|]]|].
  - rewrite lookup_evict. destruct (decide (_ ∈ _)); [by right|done].
  - right. apply lookup_empty.
Qed.

Lemma miss_is_fresh s key d :
  requestCache s !! key = None →
  (cachedRequest key d s).1 = length (promises s)
  ∧ observed (cachedRequest key d s).1 (cachedRequest key d s).2 = None.
Proof.
  intros H. unfold cachedRequest, observed. rewrite H. simpl. split; [done|].
  rewrite lookup_app_r by done. by rewrite Nat.sub_diag.
Qed.

(** A promise stays pending as long as its producer does not settle,
    whatever else happens. *)
Lemma pending_run evs s p key d :
  promises s !! p = Some (Promise key d None) → pending_during p evs = true →
  promises (run evs s) !! p = Some (Promise key d None).
Proof.
  revert s. induction evs as [|e evs IH]; intros s Hp Hc; [done|].
  unfold pending_during in Hc. cbn [forallb] in Hc.
  apply andb_true_iff in Hc as [He Hc]. apply negb_true_iff in He.
  rewrite run_cons. apply IH; [|done].
  destruct e as [key' d'|q o'|dt|]; simpl in *; try done.
  - unfold cachedRequest. destruct (requestCache s !! key'); simpl; [done|].
    by apply lookup_app_l_Some.
  - apply bool_decide_eq_false in He.
    unfold settle. destruct (promises s !! q) as [[kq dq [oq|]]|]; try done.
    simpl. by rewrite list_lookup_insert_ne.
Qed.

(** Once more than [d] milliseconds have passed since the settlement of
    [p], the key does not lead to [p] any more. *)
Lemma gone_after_settlement evs s p key d o :
  promises s !! p = Some (Promise key d None) →
  d < elapsed evs ∨ (0 < d ∧ d ≤ elapsed evs) →
  requestCache (run evs (settle p o s)) !! key ≠ Some p
  ∧ (p < length (promises (run evs (settle p o s))))%nat.
Proof.
  intros Hp Ht. eapply expiring_end; [by apply expiring_run, expiring_start|].
  rewrite (now_run evs (settle p o s)).
  assert (now (settle p o s) = now s) as -> by (unfold settle; by rewrite Hp). lia.
Qed.

(** An entry that is registered at the end was registered all along: an
    entry that left the cache does not come back, a later entry of the key
    is a new promise. So every call for the key in between was served by it. *)
Lemma registered_all_along evs s key p :
  (p < length (promises s))%nat →
  requestCache (run evs s) !! key = Some p →
  requestCache s !! key = Some p
  ∧ invocations key (run evs s) = invocations key s
  ∧ ∀ a, a ∈ answers evs s → a.1 = key → a.2 = p.
Proof.
  revert s. induction evs as [|e evs IH]; intros s Hlen Hk.
  - split_and!; [done|done|]. intros a Ha. by apply elem_of_nil in Ha.
  - rewrite run_cons in Hk.
    assert (Hlen' : (p < length (promises (step s e)))%nat).
    { destruct e as [key' d'|q o'|dt|]; simpl; try done.
      - unfold cachedRequest. destruct (requestCache s !! key'); simpl; [done|].
        rewrite length_app. lia.
      - unfold settle. destruct (promises s !! q) as [[kq dq [oq|]]|]; try done.
        simpl. by rewrite length_insert. }
    destruct (IH (step s e) Hlen' Hk) as (Hk' & Hi & Ha).
    assert (Hstep : requestCache s !! key = Some p
                    ∧ invocations key (step s e) = invocations key s
                    ∧ ∀ a, a ∈ answers [e] s → a.1 = key → a.2 = p).
    { destruct e as [key' d'|q o'|dt|]; simpl in *.
      - destruct (decide (key' = key)) as [->|Hne].
        + assert (Hs : requestCache s !! key = Some p).
          { unfold cachedRequest in Hk'.
            destruct (requestCache s !! key) as [q|] eqn:Hc; simpl in Hk'.
            - by rewrite Hc in Hk'.
            - rewrite lookup_insert_eq in Hk'. injection Hk' as Hk'. lia. }
          split; [done|]. destruct (invocations_hit s key key p Hs) as [_ Hd].
          destruct (Hd d') as [Heq Hinv]. split; [done|].
          intros a Hin _. apply list_elem_of_singleton in Hin as ->. simpl. by rewrite Heq.
        + split_and!.
          * unfold cachedRequest in Hk'.
            destruct (requestCache s !! key'); simpl in Hk'; [done|].
            by rewrite lookup_insert_ne in Hk'.
          * by apply invocations_other.
          * intros a Hin Hkey. apply list_elem_of_singleton in Hin as ->. done.
      - split_and!.
        + unfold settle in Hk'. by destruct (promises s !! q) as [[kq dq [oq|]]|].
        + apply invocations_settle.
        + intros a Hin. by apply elem_of_nil in Hin.
      - split_and!.
        + rewrite lookup_evict in Hk'. by destruct (decide (_ ∈ _)).
        + apply invocations_tick.
        + intros a Hin. by apply elem_of_nil in Hin.
      - by rewrite lookup_empty in Hk'. }
    destruct Hstep as (Hs & Hi' & Ha').
    rewrite run_cons. split_and!; [done|congruence|].
    intros a Hin Hkey. apply answers_cons in Hin as [Hin|Hin]; eauto.
Qed.

Lemma invocations_no_calls evs s key :
  no_calls key evs = true → invocations key (run evs s) = invocations key s.
Proof.
  revert s. induction evs as [|e evs IH]; intros s Hnc; [done|].
  unfold no_calls in Hnc. cbn [forallb] in Hnc.
  apply andb_true_iff in Hnc as [He Hnc]. apply negb_true_iff in He.
  rewrite run_cons, IH by done.
  destruct e as [key' d''|q o'|dt|]; simpl in *.
  - apply bool_decide_eq_false in He. by apply invocations_other.
  - apply invocations_settle.
  - apply invocations_tick.
  - done.
Qed.

End Cache.
End ApiTheory.

(** ** The request cache: deduplication and expiry *)

Module CacheClaims.
Import JS Api ApiTheory.

Section Claims.
Context {V E : Type}.
Implicit Types (s : state V E) (evs pre : list (event V E)).
Implicit Types (key : jsstring) (p : nat) (o : outcome V E).

(** C1, as the code has it. In an execution in which [clearApiCache] is not
    called, the calls of [cachedRequest] for one key that are issued while
    the producer started by the first of them is pending share one request:
    [requestFn] is invoked once, by the first call, every later caller is
    handed the promise of the first one, and therefore all of them observe
    the one outcome [o] with which the producer eventually settles. The
    calls may be interleaved with calls for other keys, settlements of other
    producers and timers. *)
Theorem concurrent_calls_share_one_request pre key d evs :
  clear_free pre = true →
  requestCache (run pre init) !! key = None →
  clear_free evs = true →
  pending_during (cachedRequest key d (run pre init)).1 evs = true →
  let first := cachedRequest key d (run pre init) in
  let s := run evs first.2 in
  invocations key s = S (invocations key (run pre init))
  ∧ (∀ a, a ∈ answers evs first.2 → a.1 = key → a.2 = first.1)
  ∧ observed first.1 s = None
  ∧ ∀ o evs', observed first.1 (run evs' (settle first.1 o s)) = Some o.
Proof.
  intros Hpre Hk Hevs Hpend first s.
  assert (Hinv : inv (run pre (@init V E))) by (apply inv_run; auto using inv_init).
  pose proof (in_flight_first_call _ key d Hinv Hk) as Hfl.
  destruct (in_flight_run evs _ key _ d Hfl Hevs Hpend) as (Hfl' & Hcount & Hans).
  fold first in Hfl', Hcount, Hans. fold s in Hfl', Hcount.
  destruct Hfl' as (_ & _ & Hp).
  split_and!.
  - rewrite Hcount. by apply invocations_miss.
  - exact Hans.
  - unfold observed. by rewrite Hp.
  - intros o evs'. apply observed_run. by eapply observed_settle.
Qed.

(** C9, as the code has it. In an execution in which [clearApiCache] is not
    called: once the producer of an entry has settled, fulfilled or rejected,
    the entry stays in [requestCache] for [cacheDuration] milliseconds counted
    from the settlement: at every moment of that window the key still maps to
    the settled promise, every call of [cachedRequest] for the key is handed
    that promise and [requestFn] is not invoked; a rejection is therefore
    served again to every caller of the window. *)
Theorem settled_entry_served_during_cacheDuration pre p key d o evs :
  clear_free pre = true →
  promises (run pre init) !! p = Some (Promise key d None) →
  clear_free evs = true →
  elapsed evs < d →
  let settled := settle p o (run pre init) in
  let s := run evs settled in
  requestCache s !! key = Some p
  ∧ observed p s = Some o
  ∧ invocations key s = invocations key settled
  ∧ (∀ a, a ∈ answers evs settled → a.1 = key → a.2 = p)
  ∧ ∀ d', (cachedRequest key d' s).1 = p
          ∧ invocations key (cachedRequest key d' s).2 = invocations key settled.
Proof.
  intros Hpre Hp Hevs Ht settled s.
  assert (Hinv : inv (run pre (@init V E))) by (apply inv_run; auto using inv_init).
  pose proof (cached_settled_start _ p key d o Hinv Hp) as Hst.
  destruct (cached_settled_run evs _ key p o _ Hst Hevs) as ((_ & Hk & Ho & _) & Hi & Ha).
  { assert (now (settle p o (run pre init)) = now (run pre (@init V E))) as ->; [|lia].
    unfold settle. by rewrite Hp. }
  fold settled in Hk, Ho, Hi, Ha. fold s in Hk, Ho, Hi.
  split_and!; try done.
  intros d'. destruct (invocations_hit s key key p Hk) as [_ Hd].
  destruct (Hd d') as [Heq Hinv']. rewrite Heq. simpl. split; [done|congruence].
Qed.

(** C5, as the code has it. When the producer of an entry rejects, every
    caller that holds the promise of the entry, the first caller and those
    that joined it, observes that rejection, at any later time. The [finally]
    callback runs for a rejection as for a success and starts the eviction
    timer then, not when the entry is registered: once [cacheDuration]
    milliseconds have passed since the rejection the key does not lead to the
    entry any more, and no call is handed the rejected promise. When the
    entry is still registered at the time of the rejection, which it always
    is in an execution that does not call [clearApiCache], every call for the
    key made while the producer was pending joined the entry, and the first
    call for the key after the rejection, if it is made when the
    [cacheDuration] has passed, invokes [requestFn] again and is handed a
    new, pending promise. *)
Theorem rejection_reaches_callers_and_expires pre key d evs err :
  requestCache (run pre init) !! key = None →
  pending_during (cachedRequest key d (run pre init)).1 evs = true →
  let first := cachedRequest key d (run pre init) in
  let s := settle first.1 (Rejected err) (run evs first.2) in
  (∀ evs', observed first.1 (run evs' s) = Some (Rejected err))
  ∧ (∀ evs', d < elapsed evs' ∨ (0 < d ∧ d ≤ elapsed evs') →
       requestCache (run evs' s) !! key ≠ Some first.1
       ∧ ∀ d', (cachedRequest key d' (run evs' s)).1 ≠ first.1)
  ∧ (requestCache (run evs first.2) !! key = Some first.1 →
       (∀ a, a ∈ answers evs first.2 → a.1 = key → a.2 = first.1)
       ∧ ∀ evs' d', d < elapsed evs' ∨ (0 < d ∧ d ≤ elapsed evs') →
           no_calls key evs' = true →
           let retry := cachedRequest key d' (run evs' s) in
           observed retry.1 retry.2 = None
           ∧ invocations key retry.2 = S (invocations key (run evs' s)))
  ∧ (clear_free pre = true → clear_free evs = true →
       requestCache (run evs first.2) !! key = Some first.1).
Proof.
  intros Hk Hpend first s.
  destruct (miss_is_fresh (run pre init) key d Hk) as [Hid _]. fold first in Hid.
  assert (Hp0 : promises first.2 !! first.1 = Some (Promise key d None)).
  { unfold first, cachedRequest. rewrite Hk. simpl.
    rewrite lookup_app_r by done. by rewrite Nat.sub_diag. }
  pose proof (pending_run evs _ _ _ _ Hp0 Hpend) as Hp.
  assert (Hgone : ∀ evs', d < elapsed evs' ∨ (0 < d ∧ d ≤ elapsed evs') →
            requestCache (run evs' s) !! key ≠ Some first.1
            ∧ (first.1 < length (promises (run evs' s)))%nat).
  { intros evs' Ht. by apply (gone_after_settlement evs' _ _ key d). }
  split_and!.
  - intros evs'. apply observed_run. by eapply observed_settle.
  - intros evs' Ht. destruct (Hgone evs' Ht) as [Hne Hlen]. split; [done|].
    intros d'. unfold cachedRequest.
    destruct (requestCache (run evs' s) !! key) as [q|]; simpl; [congruence|lia].
  - intros Hreg. split.
    + eapply registered_all_along; [|done]. by eapply lookup_lt_Some.
    + intros evs' d' Ht Hnc retry.
      destruct (Hgone evs' Ht) as [Hne Hlen].
      assert (Hnone : requestCache (run evs' s) !! key = None).
      { destruct (lookup_no_calls evs' s key first.1 Hnc) as [H|H]; [|done|done].
        left. unfold s, settle. by rewrite Hp. }
      destruct (miss_is_fresh (run evs' s) key d' Hnone) as [_ Hobs].
      split; [done|]. by apply invocations_miss.
  - intros Hpre Hevs.
    assert (Hinv : inv (run pre (@init V E))) by (apply inv_run; auto using inv_init).
    pose proof (in_flight_first_call _ key d Hinv Hk) as Hfl.
    destruct (in_flight_run evs _ key _ d Hfl Hevs Hpend) as ((_ & Hreg & _) & _ & _).
    exact Hreg.
Qed.

(** C2, as the code has it. The eviction timer is started by the [finally]
    callback, that is when the producer settles: an entry is unreachable at
    every moment that lies more than [cacheDuration] milliseconds after the
    settlement of its producer, whatever happened in between (hits do not
    prolong it). In an execution in which [clearApiCache] is not called, the
    entry is registered as long as its producer is pending, however long
    that is; and when the calls for the key since the settlement all fell
    into the window of [cacheDuration] milliseconds, the next call for the
    key invokes [requestFn] anew. *)
Theorem entry_expires_after_settlement pre p key d o :
  promises (run pre init) !! p = Some (Promise key d None) →
  let settled := settle p o (run pre init) in
  (∀ evs, d < elapsed evs → requestCache (run evs settled) !! key ≠ Some p)
  ∧ (clear_free pre = true →
       requestCache (run pre init) !! key = Some p
       ∧ ∀ window rest d',
           clear_free window = true → elapsed window < d →
           no_calls key rest = true → d < elapsed (window ++ rest) →
           let s := run (window ++ rest) settled in
           (cachedRequest key d' s).1 ≠ p
           ∧ invocations key (cachedRequest key d' s).2 = S (invocations key settled)).
Proof.
  intros Hp settled.
  assert (Hgone : ∀ evs, d < elapsed evs →
            requestCache (run evs settled) !! key ≠ Some p
            ∧ (p < length (promises (run evs settled)))%nat).
  { intros evs Ht. apply (gone_after_settlement evs _ _ key d); [done|by left]. }
  split; [intros evs Ht; by apply Hgone|].
  intros Hpre.
  assert (Hinv : inv (run pre (@init V E))) by (apply inv_run; auto using inv_init).
  split; [by eapply inv_pending|].
  intros window rest d' Hw Htw Hnc Ht s.
  destruct (Hgone _ Ht) as [Hne Hlen]. fold s in Hne, Hlen.
  pose proof (cached_settled_start _ p key d o Hinv Hp) as Hst.
  destruct (cached_settled_run window _ key p o _ Hst Hw) as ((_ & Hk & _) & Hi & _).
  { assert (now (settle p o (run pre init)) = now (run pre (@init V E))) as ->; [|lia].
    unfold settle. by rewrite Hp. }
  fold settled in Hk, Hi.
  assert (Hnone : requestCache s !! key = None).
  { unfold s. rewrite run_app.
    destruct (lookup_no_calls rest (run window settled) key p Hnc) as [H|H]; auto.
    unfold s in Hne. rewrite run_app in Hne. done. }
  destruct (miss_is_fresh s key d' Hnone) as [Hid _].
  split; [lia|]. rewrite invocations_miss by done. f_equal.
  unfold s. rewrite run_app. rewrite <- Hi. by apply invocations_no_calls.
Qed.

End Claims.

Lemma concurrent_calls_share_one_request_witness :
  let pre : list (event N N) :=
    [Call (lit "product-7") 10000; Tick 40; Settle 0%nat (Fulfilled 7)] in
  let evs : list (event N N) :=
    [Call (lit "categories") 30000; Tick 100; Call (lit "product-7") 10000;
     Call (lit "categories") 30000; Tick 20000; Call (lit "product-8") 10000;
     Settle 2%nat (Rejected 500); Call (lit "categories") 30000] in
  let first := cachedRequest (lit "categories") 30000 (run pre init) in
  let s := run evs first.2 in
  (clear_free pre = true
   ∧ requestCache (run pre init) !! lit "categories" = None
   ∧ clear_free evs = true
   ∧ pending_during first.1 evs = true)
  ∧ (invocations (lit "categories") s = S (invocations (lit "categories") (run pre init))
     ∧ (∀ a, a ∈ answers evs first.2 → a.1 = lit "categories" → a.2 = first.1)
     ∧ observed first.1 s = None
     ∧ ∀ o evs', observed first.1 (run evs' (settle first.1 o s)) = Some o).
Proof.
  intros pre evs first s. split.
  - split_and!; reflexivity.
  - apply (concurrent_calls_share_one_request pre (lit "categories") 30000 evs);
      reflexivity.
Defined.

Lemma settled_entry_served_during_cacheDuration_witness :
  let pre : list (event N N) := [Call (lit "product-7") 10000; Tick 250] in
  let evs : list (event N N) :=
    [Call (lit "product-7") 10000; Tick 9000; Call (lit "categories") 30000;
     Tick 999; Call (lit "product-7") 10000] in
  let settled := settle 0%nat (Rejected 503) (run pre init) in
  let s := run evs settled in
  (clear_free pre = true
   ∧ promises (run pre init) !! 0%nat = Some (Promise (lit "product-7") 10000 None)
   ∧ clear_free evs = true
   ∧ elapsed evs < 10000)
  ∧ (requestCache s !! lit "product-7" = Some 0%nat
     ∧ observed 0%nat s = Some (Rejected 503)
     ∧ invocations (lit "product-7") s = invocations (lit "product-7") settled
     ∧ (∀ a, a ∈ answers evs settled → a.1 = lit "product-7" → a.2 = 0%nat)
     ∧ ∀ d', (cachedRequest (lit "product-7") d' s).1 = 0%nat
             ∧ invocations (lit "product-7") (cachedRequest (lit "product-7") d' s).2
               = invocations (lit "product-7") settled).
Proof.
  intros pre evs settled s. split.
  - split_and!; reflexivity.
  - apply (settled_entry_served_during_cacheDuration pre 0%nat (lit "product-7")
             10000 (Rejected 503) evs); reflexivity.
Defined.

Lemma rejection_reaches_callers_and_expires_witness :
  let pre : list (event N N) := [Call (lit "product-7") 10000; Tick 5] in
  let evs : list (event N N) :=
    [Call (lit "category-shoes") 5000; Tick 1200; Call (lit "category-shoes") 5000] in
  let first := cachedRequest (lit "category-shoes") 5000 (run pre init) in
  let s := settle first.1 (Rejected 404) (run evs first.2) in
  (requestCache (run pre init) !! lit "category-shoes" = None
   ∧ pending_during first.1 evs = true)
  ∧ ((∀ evs', observed first.1 (run evs' s) = Some (Rejected 404))
     ∧ (∀ evs', 5000 < elapsed evs' ∨ (0 < 5000 ∧ 5000 ≤ elapsed evs') →
          requestCache (run evs' s) !! lit "category-shoes" ≠ Some first.1
          ∧ ∀ d', (cachedRequest (lit "category-shoes") d' (run evs' s)).1 ≠ first.1)
     ∧ (requestCache (run evs first.2) !! lit "category-shoes" = Some first.1 →
          (∀ a, a ∈ answers evs first.2 → a.1 = lit "category-shoes" → a.2 = first.1)
          ∧ ∀ evs' d', 5000 < elapsed evs' ∨ (0 < 5000 ∧ 5000 ≤ elapsed evs') →
              no_calls (lit "category-shoes") evs' = true →
              let retry := cachedRequest (lit "category-shoes") d' (run evs' s) in
              observed retry.1 retry.2 = None
              ∧ invocations (lit "category-shoes") retry.2
                = S (invocations (lit "category-shoes") (run evs' s)))
     ∧ (clear_free pre = true → clear_free evs = true →
          requestCache (run evs first.2) !! lit "category-shoes" = Some first.1)).
Proof.
  intros pre evs first s. split.
  - split; reflexivity.
  - apply (rejection_reaches_callers_and_expires pre (lit "category-shoes") 5000
             evs 404); reflexivity.
Defined.

Lemma entry_expires_after_settlement_witness :
  let pre : list (event N N) := [Call (lit "categories") 30000; Tick 800] in
  let settled := settle 0%nat (Fulfilled 12) (run pre init) in
  promises (run pre init) !! 0%nat = Some (Promise (lit "categories") 30000 None)
  ∧ ((∀ evs, 30000 < elapsed evs →
        requestCache (run evs settled) !! lit "categories" ≠ Some 0%nat)
     ∧ (clear_free pre = true →
          requestCache (run pre init) !! lit "categories" = Some 0%nat
          ∧ ∀ window rest d',
              clear_free window = true → elapsed window < 30000 →
              no_calls (lit "categories") rest = true →
              30000 < elapsed (window ++ rest) →
              let s := run (window ++ rest) settled in
              (cachedRequest (lit "categories") d' s).1 ≠ 0%nat
              ∧ invocations (lit "categories") (cachedRequest (lit "categories") d' s).2
                = S (invocations (lit "categories") settled))).
Proof.
  intros pre settled. split.
  - reflexivity.
  - apply (entry_expires_after_settlement pre 0%nat (lit "categories") 30000
             (Fulfilled 12)); reflexivity.
Defined.

(** C2, as stated, fails. An entry registered at time 0 with a
    [cacheDuration] of 5000 whose producer settles at time 3000 is still in
    the cache at time 5001, later than registration plus the duration: the
    call made then is a hit, it is handed the promise of the first call and
    [requestFn] has been invoked once in all, not twice. The entry leaves
    the cache at time 8000. *)
Lemma entry_outlives_ttl_from_registration :
  let key := lit "categories" in
  let registered : state N N := (cachedRequest key 5000 init).2 in
  let s := run [Tick 3000; Settle 0%nat (Fulfilled 12); Tick 2001] registered in
  now registered = 0
  ∧ now s = 5001
  ∧ requestCache s !! key = Some 0%nat
  ∧ (cachedRequest key 5000 s).1 = 0%nat
  ∧ invocations key (cachedRequest key 5000 s).2 = 1%nat
  ∧ requestCache (run [Tick 2998] s) !! key = Some 0%nat
  ∧ requestCache (run [Tick 2999] s) !! key = None.
Proof. split_and!; reflexivity. Qed.

(** C1, as stated, fails. First, [clearApiCache] between two calls for
    [product-7]: the producer of the first call is pending when the second
    call is made, yet the second call invokes [requestFn] again and the two
    callers hold different promises. Second, a timer that [clearApiCache]
    left behind: the entry of the earlier, settled request was cleared, its
    timer is due at 10000; the call made after the clearing starts a
    request, the timer removes the pending entry of that request, and the
    call that follows, made while the producer is pending and with no
    [clearApiCache] in between, is handed a new promise: [requestFn] has run
    three times in all. *)
Lemma pending_entry_dropped_after_clearApiCache :
  let key := lit "product-7" in
  let calls : list (event N N) := [Call key 10000; Clear; Call key 10000] in
  let pre : list (event N N) := [Call key 10000; Settle 0%nat (Fulfilled 7); Clear] in
  let first := cachedRequest key 10000 (run pre init) in
  let evs : list (event N N) := [Tick 10000; Call key 10000] in
  (answers calls init = [(key, 0%nat); (key, 1%nat)]
   ∧ observed 0%nat (run calls init) = None
   ∧ invocations key (run calls init) = 2%nat)
  ∧ (requestCache (run pre init) !! key = None
     ∧ invocations key (run pre init) = 1%nat
     ∧ first.1 = 1%nat
     ∧ clear_free evs = true
     ∧ pending_during first.1 evs = true
     ∧ observed first.1 (run evs first.2) = None
     ∧ answers evs first.2 = [(key, 2%nat)]
     ∧ invocations key (run evs first.2) = 3%nat).
Proof. split; split_and!; reflexivity. Qed.

(** C9, as stated, fails. First, [clearApiCache] inside the window: the
    entry whose producer was rejected at time 0 is gone 10 milliseconds
    later, and the call made then invokes [requestFn]. Second, a timer that
    [clearApiCache] left behind, with no [clearApiCache] inside the window:
    the second request for the key is rejected at time 4000, and at time
    5000, 1000 milliseconds into its window of 5000, the timer of the first
    entry removes it; the call made then invokes [requestFn]. *)
Lemma settled_entry_dropped_after_clearApiCache :
  let key := lit "category-shoes" in
  let cleared : state N N :=
    run [Tick 10; Clear] (settle 0%nat (Rejected 503) (run [Call key 5000] init)) in
  let pre : list (event N N) :=
    [Call key 5000; Settle 0%nat (Fulfilled 1); Clear; Tick 4000; Call key 5000] in
  let settled := settle 1%nat (Rejected 503) (run pre init) in
  let s := run [Tick 1000] settled in
  (requestCache cleared !! key = None
   ∧ (cachedRequest key 5000 cleared).1 = 1%nat
   ∧ invocations key (cachedRequest key 5000 cleared).2 = 2%nat)
  ∧ (promises (run pre init) !! 1%nat = Some (Promise key 5000 None)
     ∧ now settled = 4000
     ∧ requestCache settled !! key = Some 1%nat
     ∧ timers settled = [(5000, key); (9000, key)]
     ∧ now s = 5000
     ∧ requestCache s !! key = None
     ∧ (cachedRequest key 5000 s).1 = 2%nat
     ∧ invocations key (cachedRequest key 5000 s).2 = S (invocations key settled)).
Proof. split; split_and!; reflexivity. Qed.

(** C5, as stated, fails. The entry is registered at time 0 with a
    [cacheDuration] of 5000 and its producer rejects at time 3000. At time
    5001, later than registration plus the duration, the entry is still in
    the cache: the call made then is handed the rejected promise and
    [requestFn] is not invoked again. The entry leaves the cache at time
    8000. *)
Lemma cached_rejection_outlives_ttl_from_registration :
  let key := lit "category-shoes" in
  let registered : state N N := (cachedRequest key 5000 init).2 in
  let s := run [Tick 3000; Settle 0%nat (Rejected 404); Tick 2001] registered in
  now registered = 0
  ∧ now s = 5001
  ∧ requestCache s !! key = Some 0%nat
  ∧ (cachedRequest key 5000 s).1 = 0%nat
  ∧ observed 0%nat (cachedRequest key 5000 s).2 = Some (Rejected 404)
  ∧ invocations key (cachedRequest key 5000 s).2 = 1%nat
  ∧ requestCache (run [Tick 2998] s) !! key = Some 0%nat
  ∧ requestCache (run [Tick 2999] s) !! key = None.
Proof. split_and!; reflexivity. Qed.

(** [clearApiCache] empties the map and leaves the eviction timers running:
    the timer of an entry that was cleared evicts whichever entry its key has
    when it fires. Here the second producer for [product-7] is still pending
    when the timer of the first entry removes its entry, and the call that
    follows starts a third producer. Nothing in the repository calls
    [clearApiCache]. *)
Example clearApiCache_leaves_timers_running :
  let key := lit "product-7" in
  let s : state N N :=
    run [Call key 10000; Tick 100; Settle 0%nat (Fulfilled 7); Clear;
         Tick 9990; Call key 10000; Tick 10] init in
  timers (run [Call key 10000; Tick 100; Settle 0%nat (Fulfilled 7); Clear]
              (init : state N N))
  = [(10100, key)]
  ∧ observed 1%nat s = None
  ∧ requestCache s !! key = None
  ∧ (cachedRequest key 10000 s).1 = 2%nat
  ∧ invocations key (cachedRequest key 10000 s).2 = 3%nat.
Proof. split_and!; reflexivity. Qed.

End CacheClaims.

(** ** Cache keys of [getProducts] and the guard of [searchProducts] *)

Module KeyClaims.
Import JS Api ApiTheory.

Lemma filter_params_defined (filters : list (jsstring * value)) :
  filter_params filters = filter_params (filter (λ kv, defined kv = true) filters).
Proof.
  unfold filter_params. generalize (@nil (jsstring * jsstring)).
  induction filters as [|kv filters IH]; intros acc; [done|].
  cbn [foldl]. destruct (defined kv) eqn:Hd.
  - rewrite filter_cons_True by done. cbn [foldl]. rewrite Hd. apply IH.
  - rewrite filter_cons_False by (by rewrite Hd). apply IH.
Qed.

(** C3, as the code has it. The key of a products query is the
    serialization of [page], [limit] and the defined properties of the
    filter object in their property order: two filter objects whose
    properties other than those holding [undefined] or [null] are the same
    key/value pairs in the same order yield the same cache key. *)
Theorem getProducts_key_same_property_order (f1 f2 : list (jsstring * value)) page limit :
  filter (λ kv, defined kv = true) f1 = filter (λ kv, defined kv = true) f2 →
  getProducts_cacheKey f1 page limit = getProducts_cacheKey f2 page limit.
Proof.
  intros H. unfold getProducts_cacheKey, getProducts_params.
  by rewrite (filter_params_defined f1), (filter_params_defined f2), H.
Qed.

Lemma getProducts_key_same_property_order_witness :
  let f1 := [(lit "search", VUndefined); (lit "sortBy", VString (lit "price"));
             (lit "minPrice", VNumber 10); (lit "inStock", VNull)] in
  let f2 := [(lit "sortBy", VString (lit "price")); (lit "category", VUndefined);
             (lit "minPrice", VNumber 10)] in
  filter (λ kv, defined kv = true) f1 = filter (λ kv, defined kv = true) f2
  ∧ getProducts_cacheKey f1 2 20 = getProducts_cacheKey f2 2 20.
Proof.
  intros f1 f2. split; [reflexivity|].
  apply (getProducts_key_same_property_order f1 f2 2 20). reflexivity.
Defined.

(** C3, as stated, fails. The filter objects [{sortBy: 'name', sortOrder:
    'asc'}] and [{sortOrder: 'asc', sortBy: 'name'}] hold the same key/value
    pairs; their keys are
    [products-page=1&limit=20&sortBy=name&sortOrder=asc] and
    [products-page=1&limit=20&sortOrder=asc&sortBy=name], and the second
    request is not served from the entry of the first. *)
Lemma getProducts_key_depends_on_property_order :
  let f1 := [(lit "sortBy", VString (lit "name")); (lit "sortOrder", VString (lit "asc"))] in
  let f2 := [(lit "sortOrder", VString (lit "asc")); (lit "sortBy", VString (lit "name"))] in
  f1 ≡ₚ f2
  ∧ getProducts_cacheKey f1 1 20 = lit "products-page=1&limit=20&sortBy=name&sortOrder=asc"
  ∧ getProducts_cacheKey f2 1 20 = lit "products-page=1&limit=20&sortOrder=asc&sortBy=name"
  ∧ getProducts_cacheKey f1 1 20 ≠ getProducts_cacheKey f2 1 20
  ∧ let s1 := (getProducts f1 1 20 (@init N N)).2 in
    invocations (getProducts_cacheKey f2 1 20) s1 = 0%nat
    ∧ log (getProducts f2 1 20 s1).2
      = [Miss (getProducts_cacheKey f1 1 20) 0%nat; Miss (getProducts_cacheKey f2 1 20) 1%nat].
Proof.
  intros f1 f2.
  split; [apply perm_swap|]. split; [reflexivity|]. split; [reflexivity|].
  split; [by vm_compute|]. intros s1. split; reflexivity.
Qed.

Lemma trimStart_blank (s : jsstring) : forallb is_whitespace s = true → trimStart s = [].
Proof.
  induction s as [|c s IH]; [done|]. cbn [forallb trimStart].
  intros [Hc Hs]%andb_true_iff. rewrite Hc. auto.
Qed.

Lemma trim_blank (s : jsstring) : forallb is_whitespace s = true → trim s = [].
Proof. intros H. unfold trim, trimEnd. by rewrite (trimStart_blank s H). Qed.

(** Every call of [cachedRequest] leaves an entry in the log, be it a hit
    or a miss. *)
Lemma cachedRequest_logged {V E} key d (s : state V E) :
  length (log (cachedRequest key d s).2) = S (length (log s)).
Proof.
  unfold cachedRequest. destruct (requestCache s !! key); simpl;
    rewrite length_app; simpl; lia.
Qed.

(** C10. For a query that is empty or made of white space only,
    [searchProducts] returns the empty array itself: the state is left as it
    was, so the HTTP client was not invoked and [requestCache] was neither
    read nor written (no hit or miss was logged, no entry was added). *)
Theorem searchProducts_blank_query {Product E} (query : jsstring) (limit : Z)
    (s : state (list Product) E) :
  forallb is_whitespace query = true →
  searchProducts query limit s = (Returned [], s).
Proof.
  intros H. unfold searchProducts. by rewrite (trim_blank query H).
Qed.

Lemma searchProducts_blank_query_witness :
  let query : jsstring := [0x20; 0x9; 0xA0; 0x3000; 0xA] in
  let s : state (list N) N := (cachedRequest (lit "search-tv-10") 2000 init).2 in
  forallb is_whitespace query = true
  ∧ searchProducts query 10 s = (Returned [], s).
Proof.
  intros query s. split; [reflexivity|].
  apply (searchProducts_blank_query query 10 s). reflexivity.
Defined.

End KeyClaims.

(** ** Properties of [useDebounce] *)

Module DebounceClaims.
Import Debounce.

Section Hook.
Context {T : Type} `{EqDecision T}.
Implicit Types (s : state T) (evs : list (event T)) (v : T).

Lemma foldl_fire_fields s (l : list (timeout T)) :
  now (foldl fire s l) = now s ∧ timeouts (foldl fire s l) = timeouts s
  ∧ handler (foldl fire s l) = handler s ∧ deps (foldl fire s l) = deps s
  ∧ nextId (foldl fire s l) = nextId s.
Proof. revert s. induction l as [|tm l IH]; intros s; [done|]. apply (IH (fire s tm)). Qed.

Lemma owned_step s e : owned s → owned (step s e).
Proof.
  intros Ho. destruct e as [v d|dt|]; simpl.
  - unfold render. destruct (decide _); [done|].
    intros tm. simpl. rewrite elem_of_app, list_elem_of_singleton.
    intros [Hin| ->]; [|done].
    apply list_elem_of_filter in Hin as [Hne Hin]. by apply Ho in Hin.
  - unfold tick. intros tm.
    destruct (foldl_fire_fields
      {| now := now s + dt; debouncedValue := debouncedValue s; deps := deps s;
         handler := handler s;
         timeouts := filter (λ tm, due (now s + dt) tm = false) (timeouts s);
         nextId := nextId s; emitted := emitted s |}
      (filter (λ tm, due (now s + dt) tm = true) (timeouts s))) as (_ & -> & -> & _).
    simpl. intros Hin. apply list_elem_of_filter in Hin as [_ Hin]. by apply Ho.
  - intros tm. simpl. intros Hin.
    apply list_elem_of_filter in Hin as [_ Hin]. by apply Ho.
Qed.

Lemma owned_run evs s : owned s → owned (run evs s).
Proof.
  revert s. induction evs as [|e evs IH]; intros s Ho; [done|].
  apply (IH (step s e)), owned_step, Ho.
Qed.

Lemma owned_mount t0 v d : owned (mount t0 v d).
Proof. intros tm Hin. apply list_elem_of_singleton in Hin as ->. done. Qed.

Lemma clearTimeout_all (l : list (timeout T)) id :
  (∀ tm, tm ∈ l → t_id tm = id) → clearTimeout id l = [].
Proof.
  unfold clearTimeout. induction l as [|tm l IH]; intros Ho; [done|].
  rewrite filter_cons_False.
  - apply IH. intros tm' Hin. apply Ho. by right.
  - intros Hne. apply Hne, Ho. left.
Qed.

Lemma clearTimeout_owned s : owned s → clearTimeout (handler s) (timeouts s) = [].
Proof. intros Ho. by apply clearTimeout_all. Qed.

Lemma ticks_idle (ticks : list N) s :
  timeouts s = [] →
  emitted (run (map Tick ticks) s) = emitted s
  ∧ debouncedValue (run (map Tick ticks) s) = debouncedValue s
  ∧ timeouts (run (map Tick ticks) s) = [].
Proof.
  revert s. induction ticks as [|dt ticks IH]; intros s Ht; [done|].
  cbn [map]. change (run (Tick dt :: map Tick ticks) s) with (run (map Tick ticks) (tick dt s)).
  assert (Htick : tick dt s
    = {| now := now s + dt; debouncedValue := debouncedValue s; deps := deps s;
         handler := handler s; timeouts := []; nextId := nextId s; emitted := emitted s |}).
  { unfold tick. by rewrite Ht. }
  destruct (IH (tick dt s)) as (He & Hv & Hts); [by rewrite Htick|].
  rewrite He, Hv, Hts, Htick. done.
Qed.

Lemma ticks_single (ticks : list N) s i D v :
  timeouts s = [Timeout i D v] → now s < D →
  let s' := run (map Tick ticks) s in
  if D <=? now s + total ticks
  then emitted s' = emitted s ++ [(D, v)] ∧ debouncedValue s' = v ∧ timeouts s' = []
  else emitted s' = emitted s ∧ debouncedValue s' = debouncedValue s
       ∧ timeouts s' = [Timeout i D v].
Proof.
  revert s. induction ticks as [|dt ticks IH]; intros s Ht Hnow.
  - change (total []) with 0. rewrite N.add_0_r. simpl.
    destruct (N.leb_spec D (now s)); [lia|done].
  - cbn [map]. change (total (dt :: ticks)) with (dt + total ticks).
    change (run (Tick dt :: map Tick ticks) s) with (run (map Tick ticks) (tick dt s)).
    destruct (N.leb_spec D (now s + dt)) as [Hdue|Hdue].
    + assert (Htick : tick dt s
        = {| now := now s + dt; debouncedValue := v; deps := deps s;
             handler := handler s; timeouts := []; nextId := nextId s;
             emitted := emitted s ++ [(D, v)] |}).
      { unfold tick. rewrite Ht.
        rewrite filter_cons_False, filter_cons_True; unfold due; simpl.
        - done.
        - by apply N.leb_le.
        - rewrite (proj2 (N.leb_le _ _) Hdue). done. }
      destruct (N.leb_spec D (now s + (dt + total ticks))) as [_|Hc]; [|lia].
      destruct (ticks_idle ticks (tick dt s)) as (He & Hv & Hts); [by rewrite Htick|].
      rewrite He, Hv, Hts, Htick. done.
    + assert (Htick : tick dt s
        = {| now := now s + dt; debouncedValue := debouncedValue s; deps := deps s;
             handler := handler s; timeouts := [Timeout i D v]; nextId := nextId s;
             emitted := emitted s |}).
      { unfold tick. rewrite Ht.
        rewrite filter_cons_True, filter_cons_False; unfold due; simpl.
        - done.
        - rewrite (proj2 (N.leb_gt _ _) Hdue). done.
        - by apply N.leb_gt. }
      specialize (IH (tick dt s)). rewrite Htick in IH. simpl in IH.
      specialize (IH eq_refl Hdue). rewrite <- Htick in IH.
      replace (now s + (dt + total ticks)) with (now s + dt + total ticks) by lia.
      exact IH.
Qed.

Lemma tick_pending t dv dp h i D v n em dt :
  t + dt < D →
  tick dt (State t dv dp h [Timeout i D v] n em)
  = State (t + dt) dv dp h [Timeout i D v] n em :> state T.
Proof.
  intros Hlt. unfold tick. cbn [now timeouts debouncedValue deps handler nextId emitted].
  rewrite filter_cons_True, filter_cons_False, !filter_nil.
  - done.
  - unfold due. cbn [t_due]. rewrite (proj2 (N.leb_gt _ _) Hlt). done.
  - unfold due. cbn [t_due]. by apply N.leb_gt.
Qed.

Lemma render_changed t dv dp h D v n em v' d' :
  (v', d') ≠ dp →
  render v' d' (State t dv dp h [Timeout h D v] n em)
  = State t dv (v', d') n [Timeout n (t + d') v'] (S n) em :> state T.
Proof.
  intros Hne. unfold render. cbn [now timeouts debouncedValue deps handler nextId emitted].
  destruct (decide ((v', d') = dp)) as [Heq|_]; [done|].
  rewrite (clearTimeout_all [Timeout h D v] h); [done|].
  intros tm Hin. by apply list_elem_of_singleton in Hin as ->.
Qed.

(** C6. With a delay of 300 and raw values arriving at the times 0 (the
    mounting render), 50, 100 and 300, each different from the one before,
    no value is emitted up to time 300 and one timeout is left, due at 600
    with the value of time 300; however the time after the last render is cut
    into ticks, [setDebouncedValue] is called once, at time 600 with that
    value, when at least 300 milliseconds have passed, and not at all before.
    In every reachable state of the hook a render with a changed value or
    delay clears the timeout scheduled by the render before it and leaves
    its own as the only pending one. *)
Theorem useDebounce_emits_once_after_quiet_period (v0 v1 v2 v3 : T) :
  v0 ≠ v1 → v1 ≠ v2 → v2 ≠ v3 →
  let s := run [Tick 50; Render v1 300; Tick 50; Render v2 300;
                Tick 200; Render v3 300] (mount 0 v0 300) in
  (now s = 300 ∧ emitted s = [] ∧ debouncedValue s = v0
   ∧ timeouts s = [Timeout 3 600 v3])
  ∧ (∀ ticks : list N,
       let s' := run (map Tick ticks) s in
       if 300 <=? total ticks
       then emitted s' = [(600, v3)] ∧ debouncedValue s' = v3 ∧ timeouts s' = []
       else emitted s' = [] ∧ debouncedValue s' = v0)
  ∧ (∀ evs t0 v d v' d',
       let r := run evs (mount t0 v d) in
       (v', d') ≠ deps r →
       timeouts (render v' d' r) = [Timeout (nextId r) (now r + d') v']).
Proof.
  intros H01 H12 H23 s.
  assert (Hs : s = State 300 v0 (v3, 300) 3 [Timeout 3 600 v3] 4 []).
  { unfold s, run, mount. cbn [foldl step].
    rewrite (tick_pending 0 v0 (v0, 300) 0 0 (0 + 300) v0 1 [] 50) by reflexivity.
    rewrite (render_changed (0 + 50) v0 (v0, 300) 0 (0 + 300) v0 1 [] v1 300)
      by congruence.
    rewrite (tick_pending (0 + 50) v0 (v1, 300) 1 1 (0 + 50 + 300) v1 2 [] 50)
      by reflexivity.
    rewrite (render_changed (0 + 50 + 50) v0 (v1, 300) 1 (0 + 50 + 300) v1 2 [] v2 300)
      by congruence.
    rewrite (tick_pending (0 + 50 + 50) v0 (v2, 300) 2 2 (0 + 50 + 50 + 300) v2 3 [] 200)
      by reflexivity.
    rewrite (render_changed (0 + 50 + 50 + 200) v0 (v2, 300) 2 (0 + 50 + 50 + 300) v2 3 []
               v3 300) by congruence.
    reflexivity. }
  clearbody s. subst s. split; [done|]. split.
  - intros ticks s'.
    pose proof (ticks_single ticks (State 300 v0 (v3, 300) 3 [Timeout 3 600 v3] 4 [])
                  3 600 v3 eq_refl eq_refl) as Hticks.
    cbn [now emitted debouncedValue app] in Hticks. fold s' in Hticks.
    destruct (N.leb_spec 300 (total ticks)) as [Hge|Hlt];
      destruct (N.leb_spec 600 (300 + total ticks)) as [Hc|Hc]; try lia.
    + exact Hticks.
    + destruct Hticks as (He & Hv & Ht). by split.
  - intros evs t0 v d v' d' r Hne. unfold render.
    destruct (decide ((v', d') = deps r)) as [Heq|_]; [done|].
    cbn [timeouts]. rewrite clearTimeout_owned; [done|]. apply owned_run, owned_mount.
Qed.

End Hook.

Lemma useDebounce_emits_once_after_quiet_period_witness :
  let lap : string := String.String "l" (String.String "a" (String.String "p" "")) in
  let s := run [Tick 50; Render "la"%string 300; Tick 50; Render "l"%string 300;
                Tick 200; Render lap 300] (mount 0 "l"%string 300) in
  ("l"%string ≠ "la"%string ∧ "la"%string ≠ "l"%string ∧ "l"%string ≠ lap)
  ∧ ((now s = 300 ∧ emitted s = [] ∧ debouncedValue s = "l"%string
      ∧ timeouts s = [Timeout 3 600 lap])
     ∧ (∀ ticks : list N,
          let s' := run (map Tick ticks) s in
          if 300 <=? total ticks
          then emitted s' = [(600, lap)] ∧ debouncedValue s' = lap ∧ timeouts s' = []
          else emitted s' = [] ∧ debouncedValue s' = "l"%string)
     ∧ (∀ (evs : list (event string)) t0 v d v' d',
          let r := run evs (mount t0 v d) in
          (v', d') ≠ deps r →
          timeouts (render v' d' r) = [Timeout (nextId r) (now r + d') v'])).
Proof.
  intros lap s. split.
  - split_and!; discriminate.
  - apply (useDebounce_emits_once_after_quiet_period "l"%string "la"%string "l"%string lap);
      discriminate.
Defined.

End DebounceClaims.

(** ** Properties of [ProductsPage] *)

Module PageClaims.
Import ProductsPage.

Section Page.
Context {Product : Type}.
Implicit Types (s : state Product) (evs : list (event Product)) (key : string).
Implicit Types (l : list request).

Lemma cnt_app key l l' : cnt key (l ++ l') = (cnt key l + cnt key l')%nat.
Proof. unfold cnt. by rewrite filter_app, length_app. Qed.

Lemma cnt_first key key' n : cnt key [Request key' false n] = 0%nat.
Proof.
  unfold cnt. rewrite filter_cons_False; [done|].
  unfold is_request. simpl. rewrite andb_false_r. done.
Qed.

Lemma cnt_next key key' n :
  cnt key [Request key' true n] = if decide (key = key') then 1%nat else 0%nat.
Proof.
  unfold cnt. destruct (decide (key = key')) as [->|Hne].
  - rewrite filter_cons_True; [done|].
    unfold is_request. simpl. by rewrite !bool_decide_eq_true_2.
  - rewrite filter_cons_False; [done|].
    unfold is_request. simpl. rewrite bool_decide_eq_false_2; [done|congruence].
Qed.

Lemma cnt_complete_first key key' l : cnt key (complete key' false l) = cnt key l.
Proof.
  unfold cnt. induction l as [|r l IH]; [done|]. cbn [complete].
  destruct (is_request key' false r) eqn:Hr.
  - rewrite filter_cons_False; [done|].
    unfold is_request in *. apply andb_true_iff in Hr as [_ Hr].
    apply bool_decide_eq_true in Hr. rewrite Hr, andb_false_r. done.
  - destruct (is_request key true r) eqn:Hr'.
    + rewrite !filter_cons_True by done. simpl. by rewrite IH.
    + rewrite !filter_cons_False by (by rewrite Hr'). done.
Qed.

Lemma cnt_complete_next key key' l :
  cnt key (complete key' true l)
  = if decide (key = key') then pred (cnt key l) else cnt key l.
Proof.
  unfold cnt. induction l as [|r l IH]; [by destruct (decide _)|]. cbn [complete].
  destruct (is_request key' true r) eqn:Hr.
  - destruct (decide (key = key')) as [->|Hne].
    + rewrite filter_cons_True by done. done.
    + rewrite filter_cons_False; [done|].
      unfold is_request in *. apply andb_true_iff in Hr as [Hr _].
      apply bool_decide_eq_true in Hr.
      rewrite bool_decide_eq_false_2; [done|congruence].
  - destruct (is_request key true r) eqn:Hr'.
    + rewrite !filter_cons_True by done. simpl. rewrite IH.
      destruct (decide (key = key')) as [->|Hne]; [congruence|done].
    + rewrite !filter_cons_False by (by rewrite Hr'). done.
Qed.

Lemma serialized_mount key : serialized (@mount Product key).
Proof.
  intros k. unfold next_in_flight. simpl. fold (cnt k [Request key false 1]).
  rewrite cnt_first. lia.
Qed.

Lemma serialized_setQuery s key : serialized s → serialized (setQuery key s).
Proof.
  intros Hs. unfold setQuery. destruct (decide (key = queryKey s)); [done|].
  destruct (fetches_on_mount (queries s !! key)) eqn:Hf; [|exact Hs].
  intros k. unfold next_in_flight. simpl. fold (cnt k (inflight s ++ [Request key false 1])).
  rewrite cnt_app, cnt_first, Nat.add_0_r.
  specialize (Hs k). unfold next_in_flight in Hs. fold (cnt k (inflight s)) in Hs.
  destruct (decide (key = k)) as [->|Hne].
  - rewrite lookup_insert_eq. simpl.
    destruct (queries s !! k) as [[[ps|] st [| |]]|]; simpl in *; try done.
  - by rewrite lookup_insert_ne.
Qed.

Lemma serialized_rerender s : serialized s → serialized (rerender s).
Proof. intros Hs k. exact (Hs k). Qed.

Lemma serialized_complete s key (q : query Product) (next : bool) :
  serialized s →
  fetching_next (queries s !! key) = next →
  fetching_next (Some q) = false →
  serialized {| queryKey := queryKey s; queries := <[key := q]> (queries s);
                previous := previous s; inflight := complete key next (inflight s);
                deps := deps s |}.
Proof.
  intros Hs Hn Hq k. unfold next_in_flight. simpl.
  fold (cnt k (complete key next (inflight s))).
  specialize (Hs k). unfold next_in_flight in Hs. fold (cnt k (inflight s)) in Hs.
  destruct next.
  - rewrite cnt_complete_next. destruct (decide (k = key)) as [->|Hne].
    + rewrite lookup_insert_eq, Hq. rewrite Hn in Hs. lia.
    + by rewrite lookup_insert_ne.
  - rewrite cnt_complete_first. destruct (decide (k = key)) as [->|Hne].
    + rewrite lookup_insert_eq, Hq. by rewrite Hn in Hs.
    + by rewrite lookup_insert_ne.
Qed.

Lemma serialized_ignore s key : serialized s → serialized (ignore key s).
Proof.
  intros Hs k. unfold next_in_flight. simpl. fold (cnt k (complete key true (inflight s))).
  specialize (Hs k). unfold next_in_flight in Hs. fold (cnt k (inflight s)) in Hs.
  rewrite cnt_complete_next. destruct (decide (k = key)); lia.
Qed.

Lemma serialized_resolve s key pg : serialized s → serialized (resolve key pg s).
Proof.
  intros Hs. unfold resolve.
  destruct (queries s !! key) as [[ps st [| |]]|] eqn:Hq; try by apply serialized_ignore.
  - apply serialized_complete; [done|by rewrite Hq|done].
  - apply serialized_complete; [done|by rewrite Hq|done].
Qed.

Lemma serialized_reject s key : serialized s → serialized (reject key s).
Proof.
  intros Hs. unfold reject.
  destruct (queries s !! key) as [[ps st [| |]]|] eqn:Hq; try by apply serialized_ignore.
  - apply serialized_complete; [done|by rewrite Hq|done].
  - apply serialized_complete; [done|by rewrite Hq|done].
Qed.

Lemma isFetchingNextPage_current s :
  isFetchingNextPage s = fetching_next (queries s !! queryKey s).
Proof. done. Qed.

Lemma serialized_fetchNextPage s :
  isFetchingNextPage s = false → serialized s → serialized (fetchNextPage s).
Proof.
  intros Hf Hs. rewrite isFetchingNextPage_current in Hf.
  unfold fetchNextPage, current.
  destruct (queries s !! queryKey s) as [[ps st f]|] eqn:Hq; [|done].
  assert (Hnew : serialized
    {| queryKey := queryKey s;
       queries := <[queryKey s := Query ps st FetchingNext]> (queries s);
       previous := previous s;
       inflight := inflight s ++ [Request (queryKey s) true (default 1%nat (nextPageParam ps))];
       deps := deps s |}).
  { intros k. unfold next_in_flight. simpl.
    fold (cnt k (inflight s ++ [Request (queryKey s) true (default 1%nat (nextPageParam ps))])).
    rewrite cnt_app, cnt_next.
    specialize (Hs k). unfold next_in_flight in Hs. fold (cnt k (inflight s)) in Hs.
    destruct (decide (k = queryKey s)) as [->|Hne].
    - rewrite lookup_insert_eq. simpl. rewrite Hq, Hf in Hs. lia.
    - rewrite lookup_insert_ne by done. lia. }
  destruct ps as [[|pg ps]|]; destruct (nextPageParam _); done.
Qed.

(** An invocation through the callback of an up-to-date render keeps the
    requests serialized. *)
Lemma serialized_loadNextPage s :
  callback_current s = true → serialized s → serialized (step s LoadNextPage).
Proof.
  intros Hc Hs. apply bool_decide_eq_true in Hc. simpl. rewrite Hc. cbn [fst snd].
  unfold loadNextPage.
  destruct (hasNextPage s && negb (isFetchingNextPage s)) eqn:Hg; [|done].
  apply andb_true_iff in Hg as [_ Hf]. apply negb_true_iff in Hf.
  by apply serialized_fetchNextPage.
Qed.

Lemma serialized_run evs s :
  up_to_date evs s = true → serialized s → serialized (run evs s).
Proof.
  revert s. induction evs as [|e evs IH]; intros s Hu Hs; [done|].
  cbn [up_to_date] in Hu. apply andb_true_iff in Hu as [He Hu].
  apply (IH (step s e) Hu).
  destruct e as [key|key pg|key| |];
    [by apply serialized_setQuery|by apply serialized_resolve
    |by apply serialized_reject|by apply serialized_loadNextPage
    |by apply serialized_rerender].
Qed.

Lemma elem_of_complete key next l r : r ∈ complete key next l → r ∈ l.
Proof.
  induction l as [|r' l IH]; [done|]. cbn [complete].
  destruct (is_request key next r').
  - intros H. by right.
  - intros [->|H]%elem_of_cons; [by left|right; auto].
Qed.

Lemma of_query_step key s e :
  is_setQuery e = false → of_query key s → of_query key (step s e).
Proof.
  intros He [Hk Hr]. destruct e as [key'|key' pg|key'| |]; simpl in *; try done.
  - unfold resolve. destruct (queries s !! key') as [[ps st [| |]]|];
      (split; [done|]; simpl; intros r Hin; eapply Hr, elem_of_complete, Hin).
  - unfold reject. destruct (queries s !! key') as [[ps st [| |]]|];
      (split; [done|]; simpl; intros r Hin; eapply Hr, elem_of_complete, Hin).
  - unfold loadNextPage. destruct (_ && _); [|done].
    unfold fetchNextPage. destruct (current s) as [[ps st f]|]; [|done].
    assert (Hnew : of_query key
      {| queryKey := queryKey s;
         queries := <[queryKey s := Query ps st FetchingNext]> (queries s);
         previous := previous s;
         inflight := inflight s
                     ++ [Request (queryKey s) true (default 1%nat (nextPageParam ps))];
         deps := deps s |}).
    { split; [done|]. simpl. intros r [Hin|Hin]%elem_of_app; [auto|].
      apply list_elem_of_singleton in Hin as ->. done. }
    destruct ps as [[|pg ps]|]; destruct (nextPageParam _); done.
Qed.

Lemma of_query_run key evs s :
  same_query evs = true → of_query key s → of_query key (run evs s).
Proof.
  revert s. induction evs as [|e evs IH]; intros s Hq Hs; [done|].
  unfold same_query in Hq. cbn [forallb] in Hq.
  apply andb_true_iff in Hq as [He Hq]. apply negb_true_iff in He.
  apply (IH (step s e) Hq). by apply of_query_step.
Qed.

Lemma of_query_count key s :
  of_query key s → all_next_in_flight s = next_in_flight key s.
Proof.
  intros [_ Hr]. unfold all_next_in_flight, next_in_flight, cnt.
  induction (inflight s) as [|r l IH]; [done|].
  assert (Hk : r_key r = key) by (apply Hr; by left).
  assert (Hl : ∀ r', r' ∈ l → r_key r' = key) by (intros r' Hin; apply Hr; by right).
  destruct (r_next r) eqn:Hn.
  - rewrite !filter_cons_True; [simpl; by rewrite IH|..]; [|done].
    unfold is_request. by rewrite Hn, !bool_decide_eq_true_2.
  - rewrite !filter_cons_False; [by apply IH|..].
    + unfold is_request. rewrite Hn. rewrite andb_comm. simpl. done.
    + by rewrite Hn.
Qed.

(** C7, as the code has it. [loadNextPage] tests the [hasNextPage] and the
    [isFetchingNextPage] of the render that made it: when that render saw a
    next page being fetched, or no next page, the call does nothing, in
    whatever state it is made; so an invocation made when the page has
    rendered since the query last changed does nothing while the next page
    is being fetched or when there is none. One invocation issues one
    request at most. When every invocation is made after the page has
    rendered the current state, each query has at most one next-page request
    in flight, none when it is not marked as fetching its next page; and as
    long as the query of the page does not change, that is one request at
    most for the list. *)
Theorem loadNextPage_serializes_requests :
  (∀ (hasNext fetchingNext : bool) s,
     fetchingNext = true ∨ hasNext = false → loadNextPage hasNext fetchingNext s = s)
  ∧ (∀ s, callback_current s = true →
       isFetchingNextPage s = true ∨ hasNextPage s = false →
       step s LoadNextPage = s)
  ∧ (∀ (hasNext fetchingNext : bool) s,
       (length (inflight (loadNextPage hasNext fetchingNext s)) ≤ S (length (inflight s)))%nat)
  ∧ (∀ key0 evs key,
       up_to_date evs (mount key0) = true →
       (next_in_flight key (run evs (mount key0)) ≤ 1)%nat)
  ∧ (∀ key0 evs,
       up_to_date evs (mount key0) = true →
       isFetchingNextPage (run evs (mount key0)) = false →
       next_in_flight (queryKey (run evs (mount key0))) (run evs (mount key0)) = 0%nat)
  ∧ (∀ key0 evs,
       up_to_date evs (mount key0) = true → same_query evs = true →
       (all_next_in_flight (run evs (mount key0)) ≤ 1)%nat).
Proof.
  assert (Hnoop : ∀ (hasNext fetchingNext : bool) s,
     fetchingNext = true ∨ hasNext = false → loadNextPage hasNext fetchingNext s = s).
  { intros hn fn s [->| ->]; unfold loadNextPage; [by rewrite andb_false_r|done]. }
  assert (Hbound : ∀ key0 evs key,
       up_to_date evs (mount key0) = true →
       (next_in_flight key (run evs (@mount Product key0)) ≤ 1)%nat).
  { intros key0 evs key Hu.
    pose proof (serialized_run evs _ Hu (serialized_mount key0) key) as H.
    destruct (fetching_next _); lia. }
  split_and!.
  - exact Hnoop.
  - intros s Hc Hg. apply bool_decide_eq_true in Hc. simpl. rewrite Hc. cbn [fst snd].
    apply Hnoop. tauto.
  - intros hn fn s. unfold loadNextPage.
    destruct (hn && negb fn); [|lia].
    unfold fetchNextPage. destruct (current s) as [[ps st f]|]; [|lia].
    destruct ps as [[|pg ps]|]; destruct (nextPageParam _); simpl;
      rewrite ?length_app; simpl; lia.
  - exact Hbound.
  - intros key0 evs Hu Hf.
    pose proof (serialized_run evs _ Hu (serialized_mount key0)
                  (queryKey (run evs (mount key0)))) as H.
    rewrite isFetchingNextPage_current in Hf. rewrite Hf in H. lia.
  - intros key0 evs Hu Hq.
    assert (Hof : of_query key0 (@mount Product key0)).
    { split; [done|]. simpl. intros r Hin. apply list_elem_of_singleton in Hin as ->. done. }
    rewrite (of_query_count key0 _ (of_query_run key0 evs _ Hq Hof)). by apply Hbound.
Qed.







End Page.



(** C7, as stated, fails. The page shows the first page of [name-asc],
    which has a next page, and has rendered. First, the callback of that
    render is invoked twice before the page renders again: the second
    invocation is made while the next page is being fetched, it is not a
    no-op, and two next-page requests for the query are in flight. Second,
    with a render before each invocation: the next page of [name-asc] is
    being fetched when the filters change to [price-asc]; once the first page
    of [price-asc] is there, its next page is requested while the request
    for [name-asc] is still in flight, so the list has two next-page requests
    in flight. *)
Lemma next_page_requests_overlap :
  let pg := Page [1; 2] 40 1 true in
  let s : state N := run [Resolve "name-asc" pg; Render] (mount "name-asc") in
  let s1 := step s LoadNextPage in
  let s2 := step s1 LoadNextPage in
  let evs : list (event N) :=
    [Resolve "name-asc" pg; Render; LoadNextPage; SetQuery "price-asc";
     Resolve "price-asc" pg; Render; LoadNextPage] in
  let t := run evs (mount "name-asc") in
  (isFetchingNextPage s = false
   ∧ inflight s1 = [Request "name-asc" true 2]
   ∧ isFetchingNextPage s1 = true
   ∧ inflight s2 = [Request "name-asc" true 2; Request "name-asc" true 2]
   ∧ next_in_flight "name-asc" s2 = 2%nat)
  ∧ (up_to_date evs (mount "name-asc") = true
     ∧ inflight t = [Request "name-asc" true 2; Request "price-asc" true 2]
     ∧ all_next_in_flight t = 2%nat).
Proof. split; split_and!; reflexivity. Qed.

End PageClaims.

(** ** Properties of the virtualized rows *)

Module ListClaims.
Import VirtualizedList.
Local Open Scope nat_scope.

Lemma itemsPerRow_positive w : 1 ≤ itemsPerRow w ≤ 4.
Proof.
  unfold itemsPerRow. destruct w as [w|]; [|lia].
  repeat (destruct (_ <? _)%Z); lia.
Qed.

(** [ceil_div a b] is the least number of groups of [b] that hold [a]. *)
Lemma ceil_div_spec a b :
  0 < b → a ≤ ceil_div a b * b ∧ ∀ r, a ≤ r * b → ceil_div a b ≤ r.
Proof.
  intros Hb. unfold ceil_div.
  pose proof (Nat.div_mod_eq a b) as Hdm.
  pose proof (Nat.mod_upper_bound a b ltac:(lia)) as Hm.
  destruct (Nat.eqb_spec (a mod b) 0) as [H0|H0].
  - split; [nia|]. intros r Hr. nia.
  - split; [nia|]. intros r Hr. nia.
Qed.

Lemma ceil_div_lt a b i : 0 < b → i < ceil_div a b ↔ i * b < a.
Proof.
  intros Hb. destruct (ceil_div_spec a b Hb) as [Hup Hleast]. split.
  - intros Hi. destruct (Nat.le_gt_cases a (i * b)) as [Hle|Hlt]; [|done].
    apply Hleast in Hle. lia.
  - intros Hi. destruct (Nat.le_gt_cases (ceil_div a b) i) as [Hle|Hlt]; [|done].
    nia.
Qed.

Lemma lookup_slice {A} (l : list A) start end_ j :
  slice l start end_ !! j = if decide (j < end_ - start) then l !! (start + j) else None.
Proof. unfold slice. rewrite lookup_take. destruct (decide _); [apply lookup_drop|done]. Qed.

Lemma length_slice {A} (l : list A) start end_ :
  length (slice l start end_) = Nat.min (end_ - start) (length l - start).
Proof. unfold slice. by rewrite length_take, length_drop. Qed.

Section List.
Context {Product : Type}.
Implicit Types (products : list Product).

(** C8. For a list of [L] loaded products and [itemsPerRow > 0]:
    [rowCount] is the ceiling of [L / itemsPerRow], the least [r] with
    [L <= r * itemsPerRow]; the list has [rowCount + 1] rows exactly when
    [hasNextPage] holds and [rowCount] otherwise; a row whose start index
    [i * itemsPerRow] is at or past [L] renders as a loading placeholder, and
    any other row renders the products at the indices from [i * itemsPerRow]
    up to [min ((i + 1) * itemsPerRow, L)], in order, padded to the row
    width; the rows that render products are those below [rowCount]. *)
Theorem rows_of_virtualized_list products (ipr : nat) (hasNextPage : bool) :
  0 < ipr →
  let L := length products in
  let rows := rowCount products ipr in
  (L ≤ rows * ipr ∧ ∀ r, L ≤ r * ipr → rows ≤ r)
  ∧ (itemCount products ipr hasNextPage = rows + 1 ↔ hasNextPage = true)
  ∧ (hasNextPage = false → itemCount products ipr hasNextPage = rows)
  ∧ (∀ i, L ≤ i * ipr → VirtualizedRow i products ipr = LoadingRow ipr)
  ∧ (∀ i, i * ipr < L →
       ∃ cards,
         VirtualizedRow i products ipr = ProductRow cards (ipr - length cards)
         ∧ length cards = Nat.min ((i + 1) * ipr) L - i * ipr
         ∧ ∀ j, j < length cards → cards !! j = products !! (i * ipr + j))
  ∧ (∀ i, isItemLoaded products ipr i = true ↔ i * ipr < L)
  ∧ VirtualizedRow rows products ipr = LoadingRow ipr.
Proof.
  intros Hipr L rows.
  destruct (ceil_div_spec L ipr Hipr) as [Hup Hleast].
  assert (Hload : ∀ i, L ≤ i * ipr → VirtualizedRow i products ipr = LoadingRow ipr).
  { intros i Hi. unfold VirtualizedRow.
    destruct (Nat.leb_spec (length products) (i * ipr)) as [_|Hc]; [done|].
    unfold L in Hi. lia. }
  split_and!.
  - exact Hup.
  - exact Hleast.
  - unfold itemCount. fold rows. destruct hasNextPage; split; intros H; try done; lia.
  - intros ->. done.
  - exact Hload.
  - intros i Hi. unfold VirtualizedRow.
    set (cards := slice products (i * ipr) (Nat.min (i * ipr + ipr) (length products))).
    assert (Hlen : length cards = Nat.min ((i + 1) * ipr) L - i * ipr).
    { unfold cards. rewrite length_slice. fold L. lia. }
    exists cards. split_and!.
    + destruct (Nat.leb_spec (length products) (i * ipr)) as [Hc|_]; [unfold L in Hi; lia|].
      f_equal. destruct (Nat.ltb_spec (length cards) ipr) as [Hlt|Hge]; lia.
    + exact Hlen.
    + intros j Hj. unfold cards. rewrite lookup_slice.
      destruct (decide _) as [_|Hn]; [done|].
      exfalso. apply Hn. rewrite Hlen in Hj. fold L. lia.
  - intros i. unfold isItemLoaded. rewrite Nat.ltb_lt. by apply ceil_div_lt.
  - apply Hload. exact Hup.
Qed.

End List.

Lemma rows_of_virtualized_list_witness :
  let products : list N := [10; 11; 12; 13; 14; 15; 16]%N in
  0 < 3
  ∧ ((7 ≤ rowCount products 3 * 3 ∧ ∀ r, 7 ≤ r * 3 → rowCount products 3 ≤ r)
     ∧ (itemCount products 3 true = rowCount products 3 + 1 ↔ true = true)
     ∧ (true = false → itemCount products 3 true = rowCount products 3)
     ∧ (∀ i, 7 ≤ i * 3 → VirtualizedRow i products 3 = LoadingRow 3)
     ∧ (∀ i, i * 3 < 7 →
          ∃ cards,
            VirtualizedRow i products 3 = ProductRow cards (3 - length cards)
            ∧ length cards = Nat.min ((i + 1) * 3) 7 - i * 3
            ∧ ∀ j, j < length cards → cards !! j = products !! (i * 3 + j))
     ∧ (∀ i, isItemLoaded products 3 i = true ↔ i * 3 < 7)
     ∧ VirtualizedRow (rowCount products 3) products 3 = LoadingRow 3).
Proof.
  intros products. split; [lia|].
  apply (rows_of_virtualized_list products 3 true). lia.
Defined.

(** The rows of seven products on a screen three cards wide. *)
Example rows_of_seven_products :
  let products : list N := [10; 11; 12; 13; 14; 15; 16]%N in
  rowCount products 3 = 3
  ∧ itemCount products 3 true = 4
  ∧ VirtualizedRow 0 products 3 = ProductRow [10; 11; 12]%N 0
  ∧ VirtualizedRow 2 products 3 = ProductRow [16]%N 2
  ∧ VirtualizedRow 3 products 3 = LoadingRow 3.
Proof. split_and!; reflexivity. Qed.

End ListClaims.

(** ** More on the request cache and its endpoints *)

Module EndpointFacts.
Import JS Api ApiTheory Endpoints.

Section Cache.
Context {V E : Type}.
Implicit Types (s : state V E) (e : event V E) (evs : list (event V E)).
Implicit Types (key : jsstring) (p : nat) (o : outcome V E).

(** X1. [clearApiCache] invalidates every key: whatever the state, the call of
    [cachedRequest] that follows is a miss, it invokes [requestFn] and is
    handed a new pending promise. Nothing else is cancelled: the promises
    handed out before keep the outcome they have, and the eviction timers
    stay scheduled. *)
Theorem clearApiCache_forces_new_request s key d :
  let cleared := clearApiCache s in
  let r := cachedRequest key d cleared in
  requestCache cleared !! key = None
  ∧ r.1 = length (promises s)
  ∧ observed r.1 r.2 = None
  ∧ invocations key r.2 = S (invocations key s)
  ∧ (∀ p o, observed p s = Some o → observed p r.2 = Some o)
  ∧ timers r.2 = timers s.
Proof.
  intros cleared r.
  assert (Hnone : requestCache cleared !! key = None) by apply lookup_empty.
  destruct (miss_is_fresh cleared key d Hnone) as [Hid Hobs].
  split_and!.
  - exact Hnone.
  - exact Hid.
  - exact Hobs.
  - by apply (invocations_miss cleared).
  - intros p o Ho.
    apply (observed_step cleared (Call key d)), (observed_step s Clear), Ho.
  - unfold r, cachedRequest. by rewrite Hnone.
Qed.

Lemma keyed_step s e : keyed s → keyed (step s e).
Proof.
  intros Hs. destruct e as [key d|q o|dt|]; simpl.
  - unfold cachedRequest. destruct (requestCache s !! key) as [p|] eqn:Hk; simpl.
    + exact Hs.
    + intros k p. simpl. destruct (decide (key = k)) as [->|Hne].
      * rewrite lookup_insert_eq. intros [= <-].
        eexists. split; [rewrite lookup_app_r by done; by rewrite Nat.sub_diag|done].
      * rewrite lookup_insert_ne by done. intros Hp.
        destruct (Hs _ _ Hp) as (pr & Hpr & Hkey).
        exists pr. split; [by apply lookup_app_l_Some|done].
  - unfold settle. destruct (promises s !! q) as [[kq dq [oq|]]|] eqn:Hq; try done.
    intros k p. simpl. intros Hp. destruct (Hs _ _ Hp) as (pr & Hpr & Hkey).
    destruct (decide (p = q)) as [->|Hne].
    + rewrite Hq in Hpr. injection Hpr as <-. eexists.
      split; [apply list_lookup_insert_eq; by eapply lookup_lt_Some|exact Hkey].
    + exists pr. by rewrite list_lookup_insert_ne.
  - intros k p. simpl. rewrite lookup_evict.
    destruct (decide (_ ∈ _)); [done|]. apply Hs.
  - intros k p. simpl. by rewrite lookup_empty.
Qed.

Lemma keyed_run evs s : keyed s → keyed (run evs s).
Proof.
  revert s. induction evs as [|e evs IH]; intros s Hs; [done|].
  rewrite run_cons. by apply IH, keyed_step.
Qed.

Lemma keyed_init : keyed (@init V E).
Proof. intros key p. simpl. by rewrite lookup_empty. Qed.

(** The key of a promise never changes and promises are never removed. *)
Lemma promise_key_step s e p pr :
  promises s !! p = Some pr →
  ∃ pr', promises (step s e) !! p = Some pr' ∧ p_key pr' = p_key pr.
Proof.
  intros Hp. destruct e as [key d|q o|dt|]; simpl; try by eauto.
  - unfold cachedRequest. destruct (requestCache s !! key); simpl; [by eauto|].
    exists pr. split; [by apply lookup_app_l_Some|done].
  - unfold settle. destruct (promises s !! q) as [[kq dq [oq|]]|] eqn:Hq; try by eauto.
    simpl. destruct (decide (q = p)) as [->|Hne].
    + rewrite Hp in Hq. injection Hq as ->. eexists.
      split; [apply list_lookup_insert_eq; by eapply lookup_lt_Some|done].
    + exists pr. by rewrite list_lookup_insert_ne.
Qed.

Lemma promise_key_run evs s p pr :
  promises s !! p = Some pr →
  ∃ pr', promises (run evs s) !! p = Some pr' ∧ p_key pr' = p_key pr.
Proof.
  revert s pr. induction evs as [|e evs IH]; intros s pr Hp; [by eauto|].
  rewrite run_cons. destruct (promise_key_step s e p pr Hp) as (pr1 & Hp1 & Hk1).
  destruct (IH _ _ Hp1) as (pr2 & Hp2 & Hk2). exists pr2. split; [done|congruence].
Qed.

Lemma answers_keyed evs s a :
  keyed s → a ∈ answers evs s →
  ∃ pr, promises (run evs s) !! a.2 = Some pr ∧ p_key pr = a.1.
Proof.
  revert s. induction evs as [|e evs IH]; intros s Hs Ha.
  - by apply elem_of_nil in Ha.
  - rewrite run_cons. apply answers_cons in Ha as [Ha|Ha].
    + destruct e as [key d|q o|dt|]; simpl in Ha; try by apply elem_of_nil in Ha.
      apply list_elem_of_singleton in Ha as ->. simpl.
      assert (∃ pr, promises (cachedRequest key d s).2 !! (cachedRequest key d s).1 = Some pr
                    ∧ p_key pr = key) as (pr & Hpr & Hkey).
      { unfold cachedRequest. destruct (requestCache s !! key) as [p|] eqn:Hk; simpl.
        - by apply Hs.
        - eexists. split; [rewrite lookup_app_r by done; by rewrite Nat.sub_diag|done]. }
      destruct (promise_key_run evs _ _ _ Hpr) as (pr' & Hpr' & Hk').
      exists pr'. split; [done|congruence].
    + apply IH; [by apply keyed_step|done].
Qed.

(** X2. In every execution, with or without [clearApiCache], a call of
    [cachedRequest] is answered with a promise whose producer was started
    for the key of that call: a caller never observes the response of
    another key. *)
Theorem callers_get_promise_of_their_key evs a :
  a ∈ answers evs (@init V E) →
  ∃ pr, promises (run evs init) !! a.2 = Some pr ∧ p_key pr = a.1.
Proof. apply answers_keyed, keyed_init. Qed.

Lemma calls_for_cons key e evs :
  calls_for key (e :: evs)
  = ((if calls key e then 1 else 0) + calls_for key evs)%nat.
Proof.
  unfold calls_for. destruct (calls key e) eqn:He.
  - by rewrite filter_cons_True.
  - by rewrite filter_cons_False by (by rewrite He).
Qed.

Lemma invocations_bounded evs s key :
  (invocations key (run evs s) ≤ invocations key s + calls_for key evs)%nat.
Proof.
  revert s. induction evs as [|e evs IH]; intros s; [simpl; lia|].
  rewrite run_cons, calls_for_cons. specialize (IH (step s e)).
  assert (invocations key (step s e)
          ≤ invocations key s + if calls key e then 1 else 0)%nat; [|lia].
  destruct e as [key' d|q o|dt|]; simpl.
  - destruct (decide (key' = key)) as [->|Hne].
    + rewrite bool_decide_eq_true_2 by done.
      destruct (requestCache s !! key) as [p|] eqn:Hk.
      * destruct (invocations_hit s key key p Hk) as [_ Hd].
        destruct (Hd d) as [_ ->]. lia.
      * rewrite invocations_miss by done. lia.
    + rewrite invocations_other by done. lia.
  - rewrite invocations_settle. lia.
  - rewrite invocations_tick. lia.
  - unfold invocations. simpl. lia.
Qed.

(** X3. [requestFn] is invoked by calls only, never by a timer, a settlement
    or [clearApiCache], and at most once per call: in every execution the
    number of invocations for a key is at most the number of calls of
    [cachedRequest] for that key. *)
Theorem producer_invoked_at_most_once_per_call evs key :
  (invocations key (run evs (@init V E)) ≤ calls_for key evs)%nat.
Proof. apply (invocations_bounded evs init key). Qed.

(** X4. A request started by [prefetchData.products] is the one a call of
    [getProducts] with the same filters, page 1 and 20 per page is handed
    when it comes next, in any state of the cache: [requestFn] is not
    invoked a second time. *)
Theorem prefetched_request_is_reused (filters : list (jsstring * value)) s :
  let warmed := prefetch_products filters s in
  (getProducts filters 1 20 warmed).1 = (getProducts filters 1 20 s).1
  ∧ invocations (getProducts_cacheKey filters 1 20) (getProducts filters 1 20 warmed).2
    = invocations (getProducts_cacheKey filters 1 20) warmed
  ∧ (invocations (getProducts_cacheKey filters 1 20) warmed
     ≤ S (invocations (getProducts_cacheKey filters 1 20) s))%nat.
Proof.
  intros warmed. unfold warmed, prefetch_products, getProducts.
  set (key := getProducts_cacheKey filters 1 20).
  assert (Hin : requestCache (cachedRequest key 5000 s).2 !! key
                = Some (cachedRequest key 5000 s).1).
  { unfold cachedRequest. destruct (requestCache s !! key) eqn:Hk; simpl; [done|].
    apply lookup_insert_eq. }
  destruct (invocations_hit _ key key _ Hin) as [_ Hd].
  destruct (Hd 5000) as [Heq Hinv]. split_and!.
  - by rewrite Heq.
  - exact Hinv.
  - destruct (requestCache s !! key) as [p|] eqn:Hk.
    + destruct (invocations_hit s key key p Hk) as [_ Hd'].
      destruct (Hd' 5000) as [_ ->]. lia.
    + by rewrite invocations_miss.
Qed.

End Cache.

(** X5. The cache holds the promises of all endpoints in one map
    ([Map<string, Promise<any>>]). The keys of two different endpoints are
    never equal, whatever the arguments, so a call of one endpoint is never
    answered with the promise of another. *)
Theorem endpoint_keys_apart (id slug query : jsstring) (limit page lim : Z)
    (filters : list (jsstring * value)) :
  search_key query limit ≠ product_key id
  ∧ search_key query limit ≠ category_key slug
  ∧ search_key query limit ≠ categories_key
  ∧ search_key query limit ≠ getProducts_cacheKey filters page lim
  ∧ categories_key ≠ category_key slug
  ∧ categories_key ≠ product_key id
  ∧ categories_key ≠ getProducts_cacheKey filters page lim
  ∧ category_key slug ≠ product_key id
  ∧ category_key slug ≠ getProducts_cacheKey filters page lim
  ∧ product_key id ≠ getProducts_cacheKey filters page lim.
Proof.
  unfold search_key, product_key, category_key, categories_key, getProducts_cacheKey.
  split_and!; cbn; discriminate.
Qed.






(** A query made of one high surrogate: the request cannot be built,
    nothing is registered; the same query is served once its key is in the
    cache, which the calls of [searchProducts] themselves never bring about. *)
Example searchProducts_lone_surrogate :
  let query : jsstring := [0xD800] in
  let s : state (list N) N := (cachedRequest (search_key query 10) 2000 init).2 in
  blank query = false
  ∧ isWellFormed query = false
  ∧ searchProducts query 10 (init : state (list N) N) = (Raises URIError, init)
  ∧ searchProducts query 10 s = (Awaits 0%nat, (cachedRequest (search_key query 10) 2000 s).2)
  ∧ isWellFormed (lit "laptop" ++ [0xD83D; 0xDE00]) = true.
Proof. split_and!; reflexivity. Qed.

Lemma callers_get_promise_of_their_key_witness :
  let evs : list (event N N) :=
    [Call (product_key (lit "7")) 10000; Clear; Call categories_key 30000; Tick 20;
     Call (product_key (lit "7")) 10000] in
  (product_key (lit "7"), 2%nat) ∈ answers evs init
  ∧ ∃ pr, promises (run evs init) !! 2%nat = Some pr ∧ p_key pr = product_key (lit "7").
Proof.
  intros evs.
  assert (Hin : (product_key (lit "7"), 2%nat) ∈ answers evs init).
  { vm_compute. right. right. left. }
  split; [exact Hin|].
  apply (callers_get_promise_of_their_key evs (product_key (lit "7"), 2%nat) Hin).
Defined.

End EndpointFacts.

(** ** More on [useDebounce] *)

Module DebounceFacts.
Import Debounce DebounceMore DebounceClaims.

Section Hook.
Context {T : Type} `{EqDecision T}.
Implicit Types (s : state T) (e : event T) (evs : list (event T)) (v : T).

Lemma tick_timeouts s dt :
  timeouts (tick dt s) = filter (λ tm, due (now s + dt) tm = false) (timeouts s)
  ∧ handler (tick dt s) = handler s ∧ now (tick dt s) = now s + dt.
Proof.
  unfold tick.
  destruct (foldl_fire_fields
    {| now := now s + dt; debouncedValue := debouncedValue s; deps := deps s;
       handler := handler s;
       timeouts := filter (λ tm, due (now s + dt) tm = false) (timeouts s);
       nextId := nextId s; emitted := emitted s |}
    (filter (λ tm, due (now s + dt) tm = true) (timeouts s))) as (-> & -> & -> & _).
  done.
Qed.

Lemma single_step s e : single s → single (step s e).
Proof.
  intros Hs. destruct e as [v d|dt|]; simpl.
  - unfold render. destruct (decide _); [done|]. right. simpl.
    exists (now s + d), v.
    destruct Hs as [->|(D & v' & ->)]; [done|].
    unfold clearTimeout. by rewrite filter_cons_False, filter_nil by (simpl; auto).
  - destruct (tick_timeouts s dt) as (Ht & Hh & _). unfold single. rewrite Ht, Hh.
    destruct Hs as [->|(D & v' & ->)]; [by left|].
    destruct (due (now s + dt) (Timeout (handler s) D v')) eqn:Hd.
    + left. by rewrite filter_cons_False by (by rewrite Hd).
    + right. exists D, v'. by rewrite filter_cons_True.
  - left. simpl. destruct Hs as [->|(D & v' & ->)]; [done|].
    unfold clearTimeout. by rewrite filter_cons_False, filter_nil by (simpl; auto).
Qed.

Lemma single_run evs s : single s → single (run evs s).
Proof.
  revert s. induction evs as [|e evs IH]; intros s Hs; [done|].
  apply (IH (step s e)), single_step, Hs.
Qed.

Lemma single_mount t0 v d : single (mount t0 v d).
Proof. right. by exists (t0 + d), v. Qed.

(** X8. At any time the hook has at most one timeout pending, whatever the
    sequence of renders, elapsed times and unmounts. *)
Theorem at_most_one_timeout_pending evs t0 v d :
  (length (timeouts (run evs (mount t0 v d))) ≤ 1)%nat.
Proof.
  destruct (single_run evs _ (single_mount t0 v d)) as [->|(D & v' & ->)]; simpl; lia.
Qed.

(** X9. In any state the hook has reached, after a render with a changed value
    or delay and a positive delay [d], and as long as no other render
    follows: nothing is emitted and the debounced value stays as it was
    while less than [d] milliseconds have passed; once [d] milliseconds have
    passed the value of that render has been emitted exactly once, at [d]
    milliseconds after the render, it is the debounced value and nothing is
    pending. *)
Theorem debounced_value_follows_after_quiet_period evs t0 v0 d0 v d (ticks : list N) :
  (v, d) ≠ deps (run evs (mount t0 v0 d0)) →
  0 < d →
  let r := run evs (mount t0 v0 d0) in
  let s := run (map Tick ticks) (render v d r) in
  if d <=? total ticks
  then emitted s = emitted r ++ [(now r + d, v)] ∧ debouncedValue s = v ∧ timeouts s = []
  else emitted s = emitted r ∧ debouncedValue s = debouncedValue r
       ∧ length (timeouts s) = 1%nat.
Proof.
  intros Hne Hd r s.
  assert (Hr : render v d r
    = State (now r) (debouncedValue r) (v, d) (nextId r)
            [Timeout (nextId r) (now r + d) v] (S (nextId r)) (emitted r)).
  { unfold render. destruct (decide ((v, d) = deps r)) as [Heq|_]; [done|].
    rewrite clearTimeout_owned; [done|]. apply owned_run, owned_mount. }
  pose proof (ticks_single ticks (render v d r) (nextId r) (now r + d) v) as Hticks.
  rewrite Hr in Hticks. cbn [now timeouts emitted debouncedValue] in Hticks.
  specialize (Hticks eq_refl ltac:(lia)). rewrite <- Hr in Hticks. fold s in Hticks.
  destruct (N.leb_spec d (total ticks)) as [Hge|Hlt];
    destruct (N.leb_spec (now r + d) (now r + total ticks)) as [Hc|Hc]; try lia.
  - exact Hticks.
  - destruct Hticks as (He & Hv & Ht). by rewrite Ht.
Qed.

(** X10. When the component is removed the pending emission is cancelled: after
    [unmount], however much time passes, [setDebouncedValue] is not called
    again. *)
Theorem unmount_cancels_pending_emission evs t0 v d (ticks : list N) :
  let u := unmount (run evs (mount t0 v d)) in
  timeouts u = []
  ∧ emitted (run (map Tick ticks) u) = emitted (run evs (mount t0 v d))
  ∧ debouncedValue (run (map Tick ticks) u) = debouncedValue (run evs (mount t0 v d)).
Proof.
  intros u.
  assert (Hu : timeouts u = []).
  { unfold u, unmount. simpl. apply clearTimeout_owned, owned_run, owned_mount. }
  destruct (ticks_idle ticks u Hu) as (He & Hv & _). by rewrite He, Hv.
Qed.

Lemma within_mono (seen seen' : list T) s :
  seen ⊆ seen' → within seen s → within seen' s.
Proof. intros Hsub (Hv & Ht & He). split_and!; eauto. Qed.

Lemma within_fire (seen : list T) s (l : list (timeout T)) :
  within seen s → (∀ tm, tm ∈ l → t_value tm ∈ seen) → within seen (foldl fire s l).
Proof.
  revert s. induction l as [|tm l IH]; intros s Hs Hl; [done|].
  cbn [foldl]. apply IH; [|intros tm' Hin; apply Hl; by right].
  destruct Hs as (Hv & Ht & He). split_and!; simpl.
  - apply Hl. left.
  - exact Ht.
  - intros em Hin. apply elem_of_app in Hin as [Hin|Hin]; [by apply He|].
    apply list_elem_of_singleton in Hin as ->. simpl. apply Hl. left.
Qed.

Lemma within_run evs s (seen : list T) :
  within seen s → within (seen ++ rendered evs) (run evs s).
Proof.
  revert s seen. induction evs as [|e evs IH]; intros s seen Hs.
  - unfold rendered. simpl. by rewrite app_nil_r.
  - change (run (e :: evs) s) with (run evs (step s e)).
    destruct e as [v d|dt|].
    + change (rendered (Render v d :: evs)) with (v :: rendered evs).
      replace (seen ++ v :: rendered evs) with ((seen ++ [v]) ++ rendered evs)
        by (by rewrite <- app_assoc).
      apply IH. simpl. unfold render. destruct (decide _).
      * eapply within_mono; [|exact Hs]. intros x Hx. apply elem_of_app. by left.
      * destruct Hs as (Hv & Ht & He). split_and!; simpl.
        -- apply elem_of_app. by left.
        -- intros tm Hin. apply elem_of_app in Hin as [Hin|Hin].
           ++ apply list_elem_of_filter in Hin as [_ Hin].
              apply elem_of_app. left. by apply Ht.
           ++ apply list_elem_of_singleton in Hin as ->. simpl.
              apply elem_of_app. right. left.
        -- intros em Hin. apply elem_of_app. left. by apply He.
    + change (rendered (Tick dt :: evs)) with (rendered evs). apply IH. simpl.
      destruct Hs as (Hv & Ht & He). unfold tick. apply within_fire.
      * split_and!; simpl; [done| |done].
        intros tm Hin. apply list_elem_of_filter in Hin as [_ Hin]. by apply Ht.
      * intros tm Hin. apply list_elem_of_filter in Hin as [_ Hin]. by apply Ht.
    + change (rendered (Unmount :: evs)) with (rendered evs). apply IH. simpl.
      destruct Hs as (Hv & Ht & He). split_and!; simpl; [done| |done].
      intros tm Hin. apply list_elem_of_filter in Hin as [_ Hin]. by apply Ht.
Qed.

(** X11. The hook never makes up a value: the debounced value it returns and
    every value it emits is the value of the first render or of a later
    render. *)
Theorem debounced_value_is_a_raw_value evs t0 v0 d0 :
  let s := run evs (mount t0 v0 d0) in
  debouncedValue s ∈ v0 :: rendered evs
  ∧ ∀ em, em ∈ emitted s → em.2 ∈ v0 :: rendered evs.
Proof.
  intros s.
  assert (Hm : within [v0] (mount t0 v0 d0)).
  { split_and!; simpl.
    - left.
    - intros tm Hin. apply list_elem_of_singleton in Hin as ->. left.
    - intros em Hin. by apply elem_of_nil in Hin. }
  destruct (within_run evs _ _ Hm) as (Hv & _ & He). by split.
Qed.

End Hook.

Lemma debounced_value_follows_after_quiet_period_witness :
  let evs : list (event string) := [Tick 120; Render "ph"%string 500; Tick 80] in
  let r := run evs (mount 0 "p"%string 500) in
  let s := run (map Tick [200; 300; 50]) (render "pho"%string 500 r) in
  (("pho"%string, 500) ≠ deps r ∧ 0 < 500)
  ∧ (if 500 <=? total [200; 300; 50]
     then emitted s = emitted r ++ [(now r + 500, "pho"%string)]
          ∧ debouncedValue s = "pho"%string ∧ timeouts s = []
     else emitted s = emitted r ∧ debouncedValue s = debouncedValue r
          ∧ length (timeouts s) = 1%nat).
Proof.
  intros evs r s. split; [split; [discriminate|reflexivity]|].
  apply (debounced_value_follows_after_quiet_period evs 0 "p"%string 500 "pho"%string 500
           [200; 300; 50]); [discriminate|reflexivity].
Defined.

End DebounceFacts.

(** ** Filters of the page and the key of the products query *)

Module FilterFacts.
Import JS Api PageFilters.

Lemma filter_all {A} (P : A → Prop) `{∀ x, Decision (P x)} (l : list A) :
  (∀ x, x ∈ l → P x) → filter P l = l.
Proof.
  induction l as [|x l IH]; intros Hall; [done|].
  rewrite filter_cons_True by (apply Hall; left).
  f_equal. apply IH. intros y Hy. apply Hall. by right.
Qed.

Lemma obj_set_fresh {V} (k : jsstring) (v : V) (o : list (jsstring * V)) :
  k ∉ o.*1 → obj_set k v o = o ++ [(k, v)].
Proof.
  induction o as [|[k' v'] o IH]; [done|]. cbn [obj_set fmap list_fmap fst].
  intros Hk. apply not_elem_of_cons in Hk as [Hne Hk].
  destruct (decide (k' = k)) as [->|_]; [done|]. simpl. by rewrite IH.
Qed.

(** Setting a property to [undefined] has the effect, for the key, of
    deleting it. *)
Lemma defined_obj_set_undefined (k : jsstring) (o : list (jsstring * value)) :
  NoDup o.*1 →
  filter (λ kv, defined kv = true) (obj_set k VUndefined o)
  = filter (λ kv, defined kv = true) (without k o).
Proof.
  unfold without. induction o as [|[k' v'] o IH]; intros Hnd.
  - done.
  - rewrite fmap_cons in Hnd. apply NoDup_cons in Hnd as [Hk' Hnd].
    cbn [obj_set]. destruct (decide (k' = k)) as [->|Hne].
    + rewrite filter_cons_False by done.
      rewrite (filter_cons_False (λ kv, kv.1 ≠ k)) by (simpl; auto).
      f_equal. symmetry. apply filter_all.
      intros [k1 v1] Hin Heq. simpl in Heq. subst k1.
      apply Hk'. simpl. by apply (list_elem_of_fmap_2 fst) in Hin.
    + rewrite (filter_cons_True (λ kv, kv.1 ≠ k)) by done.
      destruct (defined (k', v')) eqn:Hd.
      * rewrite !filter_cons_True by done. f_equal. by apply IH.
      * rewrite !filter_cons_False by (by rewrite Hd). by apply IH.
Qed.

Lemma cacheKey_defined (f1 f2 : list (jsstring * value)) page limit :
  filter (λ kv, defined kv = true) f1 = filter (λ kv, defined kv = true) f2 →
  getProducts_cacheKey f1 page limit = getProducts_cacheKey f2 page limit.
Proof.
  intros H. unfold getProducts_cacheKey, getProducts_params.
  by rewrite (KeyClaims.filter_params_defined f1), (KeyClaims.filter_params_defined f2), H.
Qed.

(** X7. For a filter object with distinct property names: unsetting a filter
    with [handleFilterChange({k: undefined})] gives the cache key of the
    filters without the property [k]; an empty debounced search term gives
    the key of the filters without [search]; and so adding a filter that was
    not there and unsetting it again gives back the key the filters had. *)
Theorem unset_filter_is_absent_filter (filters : list (jsstring * value))
    (k : jsstring) (v : value) (page limit : Z) :
  NoDup filters.*1 →
  getProducts_cacheKey (handleFilterChange [(k, VUndefined)] filters) page limit
  = getProducts_cacheKey (without k filters) page limit
  ∧ getProducts_cacheKey (finalFilters filters []) page limit
    = getProducts_cacheKey (without (lit "search") filters) page limit
  ∧ (k ∉ filters.*1 →
     getProducts_cacheKey
       (handleFilterChange [(k, VUndefined)] (handleFilterChange [(k, v)] filters))
       page limit
     = getProducts_cacheKey filters page limit).
Proof.
  intros Hnd. split_and!.
  - apply cacheKey_defined. unfold handleFilterChange, obj_spread. cbn [foldl fst snd].
    by apply defined_obj_set_undefined.
  - apply cacheKey_defined. unfold finalFilters. cbn [truthy].
    by apply defined_obj_set_undefined.
  - intros Hk. apply cacheKey_defined.
    unfold handleFilterChange, obj_spread. cbn [foldl fst snd].
    rewrite (obj_set_fresh k v filters Hk).
    assert (Hset : obj_set k VUndefined (filters ++ [(k, v)]) = filters ++ [(k, VUndefined)]).
    { clear Hnd. induction filters as [|[k' v'] o IH]; cbn [app obj_set].
      - by destruct (decide (k = k)).
      - cbn [fmap list_fmap fst] in Hk. apply not_elem_of_cons in Hk as [Hne Hk].
        destruct (decide (k' = k)) as [->|_]; [done|]. by rewrite IH. }
    rewrite Hset, filter_app, filter_cons_False, filter_nil by done.
    apply app_nil_r.
Qed.

Lemma unset_filter_is_absent_filter_witness :
  let filters := [(lit "sortBy", VString (lit "price")); (lit "minPrice", VNumber 10);
                  (lit "sortOrder", VString (lit "desc"))] in
  NoDup filters.*1
  ∧ (getProducts_cacheKey (handleFilterChange [(lit "inStock", VUndefined)] filters) 1 20
     = getProducts_cacheKey (without (lit "inStock") filters) 1 20
     ∧ getProducts_cacheKey (finalFilters filters []) 1 20
       = getProducts_cacheKey (without (lit "search") filters) 1 20
     ∧ (lit "inStock" ∉ filters.*1 →
        getProducts_cacheKey
          (handleFilterChange [(lit "inStock", VUndefined)]
             (handleFilterChange [(lit "inStock", VBoolean true)] filters)) 1 20
        = getProducts_cacheKey filters 1 20)).
Proof.
  intros filters.
  assert (Hnd : NoDup filters.*1) by (refine (bool_decide_unpack _ _); vm_compute; exact I).
  split; [exact Hnd|].
  apply (unset_filter_is_absent_filter filters (lit "inStock") (VBoolean true) 1 20 Hnd).
Defined.

End FilterFacts.

(** ** Properties of [useIntersectionObserver] *)

Module ObserverFacts.
Import IntersectionObserver.

Section Hook.
Context (freeze supported : bool).
Implicit Types (s : state) (e : event) (evs : list event).

Lemma attached_effect s : attached freeze supported (effect freeze supported s).
Proof.
  split; [done|]. intros n. unfold effect. simpl.
  destruct (node s) as [m|]; [|done].
  destruct (default false (frozen freeze s)) eqn:Hf; [done|].
  destruct supported; [|done]. by intros [= ->].
Qed.

Lemma attached_rerender s :
  (deps s = (node s, frozen freeze s) →
   ∀ n, observed s = Some n →
     node s = Some n ∧ supported = true ∧ default false (frozen freeze s) = false) →
  attached freeze supported (rerender freeze supported s).
Proof.
  intros Hs. unfold rerender.
  destruct (decide ((node s, frozen freeze s) = deps s)) as [Heq|_].
  - split; [done|]. by apply Hs.
  - apply attached_effect.
Qed.

Lemma attached_step s e :
  attached freeze supported s → attached freeze supported (step freeze supported s e).
Proof.
  intros Hs. pose proof Hs as [Hd Ho]. destruct e as [n'|b|]; simpl.
  - unfold setNode. apply attached_rerender. simpl. rewrite Hd.
    intros [= Hn] n Hobs. destruct (Ho n Hobs) as (Hnode & Hsup & Hfr).
    split_and!; [congruence|done|done].
  - unfold deliver. destruct (observed s) as [m|] eqn:Hm; [|exact Hs].
    apply attached_rerender. simpl. rewrite Hd.
    intros [= Hf] n [= <-]. destruct (Ho m eq_refl) as (Hnode & Hsup & Hfr).
    split_and!; [done|done|].
    unfold frozen in *. simpl in *. by rewrite <- Hf.
  - split; [exact Hd|]. intros n. simpl. discriminate.
Qed.

Lemma attached_run evs s :
  attached freeze supported s → attached freeze supported (run freeze supported evs s).
Proof.
  revert s. induction evs as [|e evs IH]; intros s Hs; [done|].
  apply (IH (step freeze supported s e)), attached_step, Hs.
Qed.

Lemma attached_mount : attached freeze supported mount.
Proof. by split. Qed.

(** X20. Whatever the elements given to the [ref] callback and the entries the
    observer delivers: when an observer is connected it observes the element
    the hook holds at that time, observers are supported, and the hook is not
    frozen, that is, it is not both visible and asked to freeze once
    visible. *)
Theorem observer_watches_the_current_node evs n :
  let s := run freeze supported evs mount in
  observed s = Some n →
  node s = Some n ∧ supported = true ∧ (isVisible s = true → freeze = false).
Proof.
  intros s Hobs.
  destruct (attached_run evs _ attached_mount) as [_ Ho].
  destruct (Ho n Hobs) as (Hnode & Hsup & Hfr). fold s in Hnode, Hfr.
  split_and!; [done|done|].
  unfold isVisible, frozen in *. by destruct (entry s) as [[|]|].
Qed.

End Hook.

Section Freeze.
Context (supported : bool).
Implicit Types (s : state) (evs : list event).

Lemma visible_step s e :
  attached true supported s → isVisible s = true →
  isVisible (step true supported s e) = true ∧ entry (step true supported s e) = entry s.
Proof.
  intros [Hd Ho] Hv.
  assert (Hnone : observed s = None).
  { destruct (observed s) as [n|] eqn:Hobs; [|done].
    destruct (Ho n eq_refl) as (_ & _ & Hfr).
    unfold isVisible, frozen in *. by destruct (entry s) as [[|]|]. }
  destruct e as [n'|b|]; simpl.
  - unfold setNode, rerender. simpl. by destruct (decide _).
  - unfold deliver. by rewrite Hnone.
  - done.
Qed.

(** X21. With [freezeOnceVisible], once the hook has reported the element as
    visible it reports it as visible for good: from then on no observer is
    connected, whatever element the [ref] callback is given, so no entry can
    change the result. *)
Theorem visible_is_frozen evs evs' :
  let s := run true supported evs mount in
  isVisible s = true →
  isVisible (run true supported evs' s) = true
  ∧ observed (run true supported evs' s) = None.
Proof.
  intros s Hv.
  assert (Hs : attached true supported s) by apply attached_run, attached_mount.
  clearbody s. revert s Hv Hs. induction evs' as [|e evs' IH]; intros s Hv Hs.
  - split; [done|]. destruct Hs as [Hd Ho].
    destruct (observed s) as [n|] eqn:Hobs; [|done].
    destruct (Ho n eq_refl) as (_ & _ & Hfr).
    unfold isVisible, frozen in *. by destruct (entry s) as [[|]|].
  - destruct (visible_step s e Hs Hv) as [Hv' _].
    apply (IH (step true supported s e) Hv'). by apply attached_step.
Qed.

End Freeze.

Lemma observer_watches_the_current_node_witness :
  let evs := [SetNode (Some 4%nat); Deliver false; SetNode (Some 5%nat)] in
  let s := run true true evs mount in
  observed s = Some 5%nat
  ∧ (node s = Some 5%nat ∧ true = true ∧ (isVisible s = true → true = false)).
Proof.
  intros evs s. split; [reflexivity|].
  apply (observer_watches_the_current_node true true evs 5%nat). reflexivity.
Defined.

Lemma visible_is_frozen_witness :
  let evs := [SetNode (Some 4%nat); Deliver false; Deliver true] in
  let evs' := [Deliver false; SetNode (Some 5%nat); Deliver false; Unmount] in
  let s := run true true evs mount in
  isVisible s = true
  ∧ (isVisible (run true true evs' s) = true ∧ observed (run true true evs' s) = None).
Proof.
  intros evs evs' s. split; [reflexivity|].
  apply (visible_is_frozen true evs evs'). reflexivity.
Defined.

End ObserverFacts.

(** ** More on the virtualized rows and on pagination *)

Module ListFacts.
Import VirtualizedList ListMore ListClaims.
Local Open Scope nat_scope.

Lemma take_all {A} (l : list A) n : length l ≤ n → take n l = l.
Proof.
  revert n. induction l as [|x l IH]; intros n Hn; [by destruct n|].
  destruct n as [|n]; simpl in *; [lia|]. f_equal. apply IH. lia.
Qed.

(** Consecutive chunks of [n] elements make up the list. *)
Lemma chunks_concat {A} (l : list A) (n k : nat) :
  length l ≤ k * n →
  concat (map (λ i, take n (drop (i * n) l)) (seq 0 k)) = l.
Proof.
  revert l. induction k as [|k IH]; intros l Hl.
  - simpl in *. destruct l; [done|simpl in Hl; lia].
  - cbn [seq map concat]. rewrite <- seq_shift, map_map. simpl (0 * n).
    rewrite drop_0.
    rewrite (map_ext (λ i, take n (drop (S i * n) l))
                     (λ i, take n (drop (i * n) (drop n l)))).
    + rewrite IH by (rewrite length_drop; lia). apply take_drop.
    + intros i. by rewrite drop_drop.
Qed.

Lemma slice_chunk {A} (l : list A) (n i : nat) :
  slice l (i * n) (Nat.min (i * n + n) (length l)) = take n (drop (i * n) l).
Proof.
  unfold slice. destruct (Nat.le_gt_cases (i * n + n) (length l)) as [Hle|Hgt].
  - rewrite Nat.min_l by done. f_equal. lia.
  - rewrite Nat.min_r by lia.
    rewrite !take_all; [done| |]; rewrite length_drop; lia.
Qed.

Section List.
Context {Product : Type}.
Implicit Types (products : list Product).

Lemma cards_of_row products ipr i :
  cards_of (VirtualizedRow i products ipr) = take ipr (drop (i * ipr) products).
Proof.
  unfold VirtualizedRow. destruct (Nat.leb_spec (length products) (i * ipr)) as [Hle|Hgt].
  - simpl. by rewrite drop_ge, take_nil.
  - simpl. apply slice_chunk.
Qed.

(** X15. Whatever the width of the window: reading the rows of the list from
    top to bottom gives the loaded products, each once and in order, and the
    trailing placeholder row adds none. *)
Theorem rows_show_every_product_once (innerWidth : option Z) products :
  let ipr := itemsPerRow innerWidth in
  products_on_rows products ipr (rowCount products ipr) = products
  ∧ products_on_rows products ipr (itemCount products ipr true) = products.
Proof.
  intros ipr.
  assert (Hipr : 0 < ipr) by (pose proof (itemsPerRow_positive innerWidth); unfold ipr; lia).
  destruct (ceil_div_spec (length products) ipr Hipr) as [Hup _].
  assert (Hrows : ∀ k, length products ≤ k * ipr → products_on_rows products ipr k = products).
  { intros k Hk. unfold products_on_rows.
    rewrite (map_ext _ (λ i, take ipr (drop (i * ipr) products)))
      by (intros i; apply cards_of_row).
    by apply chunks_concat. }
  split; apply Hrows; unfold itemCount, rowCount; lia.
Qed.

(** X16. Whatever the width of the window: every row has as many cells as the
    row is wide; a row below [rowCount] holds at least one product card,
    and as many cards as the row is wide unless it is the last of them; the
    only row of the list that [isItemLoaded] reports as not loaded is the
    trailing one, present when [hasNextPage] holds. *)
Theorem rows_are_full_except_the_last (innerWidth : option Z) products (hasNextPage : bool) :
  let ipr := itemsPerRow innerWidth in
  let rows := rowCount products ipr in
  (∀ i, cells_of (VirtualizedRow i products ipr) = ipr)
  ∧ (∀ i, i < rows → 1 ≤ length (cards_of (VirtualizedRow i products ipr)) ≤ ipr)
  ∧ (∀ i, i + 1 < rows → length (cards_of (VirtualizedRow i products ipr)) = ipr)
  ∧ (∀ i, i < itemCount products ipr hasNextPage →
       (isItemLoaded products ipr i = false ↔ hasNextPage = true ∧ i = rows)).
Proof.
  intros ipr rows.
  assert (Hipr : 0 < ipr) by (pose proof (itemsPerRow_positive innerWidth); unfold ipr; lia).
  destruct (ceil_div_spec (length products) ipr Hipr) as [Hup Hleast].
  fold (rowCount products ipr) in Hup, Hleast. fold rows in Hup, Hleast.
  assert (Hlen : ∀ i, length (cards_of (VirtualizedRow i products ipr))
                      = Nat.min ipr (length products - i * ipr)).
  { intros i. by rewrite cards_of_row, length_take, length_drop. }
  split_and!.
  - intros i. pose proof (Hlen i) as Hl. unfold VirtualizedRow in *.
    destruct (Nat.leb_spec (length products) (i * ipr)); [done|].
    simpl in *. destruct (Nat.ltb_spec (length (slice products (i * ipr)
      (Nat.min (i * ipr + ipr) (length products)))) ipr); lia.
  - intros i Hi. rewrite Hlen.
    assert (i * ipr < length products) by (by apply (ceil_div_lt _ ipr i Hipr)). lia.
  - intros i Hi. rewrite Hlen.
    assert ((i + 1) * ipr < length products) by (by apply (ceil_div_lt _ ipr _ Hipr)). lia.
  - intros i Hi. unfold isItemLoaded. fold rows. rewrite Nat.ltb_ge.
    unfold itemCount in Hi. fold rows in Hi. destruct hasNextPage.
    + split; [intros ?; split; [done|lia]|intros [_ ->]; lia].
    + split; [intros ?; lia|intros [? _]; done].
Qed.

(** X17. [ProductList]: for a positive page size, the pages 1 to [totalPages],
    one after the other, make up the filtered and sorted list; each of them
    holds at least one product and at most a page size of them, and a page
    after the last is empty. *)
Theorem pages_split_the_list (l : list Product) (itemsPerPage : nat) :
  0 < itemsPerPage →
  concat (map (λ page, paginatedProducts l page itemsPerPage) (page_buttons l itemsPerPage))
  = l
  ∧ (∀ page, page ∈ page_buttons l itemsPerPage →
       1 ≤ length (paginatedProducts l page itemsPerPage) ≤ itemsPerPage)
  ∧ (∀ page, totalPages l itemsPerPage < page → paginatedProducts l page itemsPerPage = []).
Proof.
  intros Hper.
  destruct (ceil_div_spec (length l) itemsPerPage Hper) as [Hup _].
  fold (totalPages l itemsPerPage) in Hup.
  assert (Hpage : ∀ i, paginatedProducts l (i + 1) itemsPerPage
                       = take itemsPerPage (drop (i * itemsPerPage) l)).
  { intros i. unfold paginatedProducts, slice. do 2 f_equal; lia. }
  split_and!.
  - unfold page_buttons. rewrite map_map.
    rewrite (map_ext _ (λ i, take itemsPerPage (drop (i * itemsPerPage) l))) by apply Hpage.
    by apply chunks_concat.
  - intros page Hin. unfold page_buttons in Hin.
    apply list_elem_of_In, in_map_iff in Hin as (i & <- & Hi). apply in_seq in Hi.
    rewrite Hpage, length_take, length_drop.
    assert (i * itemsPerPage < length l).
    { apply (proj1 (ceil_div_lt (length l) itemsPerPage i Hper)).
      unfold totalPages in Hi. lia. }
    lia.
  - intros page Hgt. destruct page as [|i]; [lia|].
    replace (S i) with (i + 1) by lia. rewrite Hpage.
    rewrite drop_ge; [apply take_nil|]. nia.
Qed.

End List.

Lemma pages_split_the_list_witness :
  let l : list N := [3; 1; 4; 1; 5; 9; 2]%N in
  0 < 3
  ∧ (concat (map (λ page, paginatedProducts l page 3) (page_buttons l 3)) = l
     ∧ (∀ page, page ∈ page_buttons l 3 → 1 ≤ length (paginatedProducts l page 3) ≤ 3)
     ∧ (∀ page, totalPages l 3 < page → paginatedProducts l page 3 = [])).
Proof.
  intros l. split; [lia|]. apply (pages_split_the_list l 3). lia.
Defined.

End ListFacts.

(** ** More on [ProductsPage] *)

Module PageFacts.
Import ProductsPage PageMore.

Section Page.
Context {Product : Type}.
Implicit Types (s : state Product) (evs : list (event Product)) (key : string).

Lemma next_has_pages_insert s key (q : query Product) qk pv fl dp :
  next_has_pages s →
  (q_fetch q = FetchingNext → is_Some (q_pages q)) →
  next_has_pages {| queryKey := qk; queries := <[key := q]> (queries s);
                    previous := pv; inflight := fl; deps := dp |}.
Proof.
  intros Hs Hq k ps st. simpl. destruct (decide (key = k)) as [->|Hne].
  - rewrite lookup_insert_eq. intros [= ->]. by apply Hq.
  - rewrite lookup_insert_ne by done. apply Hs.
Qed.

Lemma hasNextPage_has_pages s :
  hasNextPage s = true → ∃ q, current s = Some q ∧ is_Some (q_pages q).
Proof.
  unfold hasNextPage. destruct (current s) as [q|]; [|done].
  intros [n Hn]%bool_decide_eq_true. exists q. split; [done|].
  destruct (q_pages q); [by eexists|done].
Qed.

Lemma callback_has_pages_rerender s : callback_has_pages (rerender s).
Proof. intros Hd. by apply hasNextPage_has_pages in Hd. Qed.

(** The query of the page keeps its pages when [key] takes the query [q]. *)
Lemma callback_has_pages_insert s key (q : query Product) pv fl :
  callback_has_pages s →
  (∀ q0, queries s !! key = Some q0 → is_Some (q_pages q0) → is_Some (q_pages q)) →
  callback_has_pages {| queryKey := queryKey s; queries := <[key := q]> (queries s);
                        previous := pv; inflight := fl; deps := deps s |}.
Proof.
  intros Hs Hq Hd. destruct (Hs Hd) as (q0 & Hcur & Hp). unfold current in *. simpl.
  destruct (decide (key = queryKey s)) as [->|Hne].
  - rewrite lookup_insert_eq. exists q. split; [done|]. by apply (Hq q0).
  - rewrite lookup_insert_ne by done. by exists q0.
Qed.

Lemma callback_has_pages_step s e : callback_has_pages s → callback_has_pages (step s e).
Proof.
  intros Hs. destruct e as [key|key pg|key| |]; simpl.
  - unfold setQuery. destruct (decide _); [done|].
    destruct (fetches_on_mount _); apply callback_has_pages_rerender.
  - unfold resolve. destruct (queries s !! key) as [[ps st [| |]]|] eqn:Hq; try exact Hs;
      (apply callback_has_pages_insert; [done|]; intros _ _ _; by eexists).
  - unfold reject. destruct (queries s !! key) as [[ps st [| |]]|] eqn:Hq; try exact Hs;
      (apply callback_has_pages_insert; [done|];
       intros q0 Hq0; rewrite Hq in Hq0; by injection Hq0 as <-).
  - unfold loadNextPage. destruct (_ && _); [|done].
    unfold fetchNextPage. unfold current.
    destruct (queries s !! queryKey s) as [[ps st f]|] eqn:Hq; [|done].
    assert (callback_has_pages
      {| queryKey := queryKey s;
         queries := <[queryKey s := Query ps st FetchingNext]> (queries s);
         previous := previous s;
         inflight := inflight s
                     ++ [Request (queryKey s) true (default 1%nat (nextPageParam ps))];
         deps := deps s |}).
    { apply callback_has_pages_insert; [done|].
      intros q0 Hq0. rewrite Hq in Hq0. by injection Hq0 as <-. }
    destruct ps as [[|pg ps]|]; destruct (nextPageParam _); done.
  - apply callback_has_pages_rerender.
Qed.

Lemma next_has_pages_step s e :
  callback_has_pages s → next_has_pages s → next_has_pages (step s e).
Proof.
  intros Hcb Hs. destruct e as [key|key pg|key| |]; simpl.
  - unfold setQuery. destruct (decide _); [done|].
    destruct (fetches_on_mount _); [|exact Hs].
    apply (next_has_pages_insert s key (Query None Loading FetchingFirst)); done.
  - unfold resolve. destruct (queries s !! key) as [[ps st [| |]]|]; try exact Hs;
      by apply next_has_pages_insert.
  - unfold reject. destruct (queries s !! key) as [[ps st [| |]]|]; try exact Hs;
      by apply next_has_pages_insert.
  - unfold loadNextPage. destruct ((deps s).1) eqn:Hd; [|done]. cbn [andb].
    destruct (negb _); [|done].
    destruct (Hcb Hd) as (q & Hcur & [ps Hps]).
    unfold fetchNextPage. rewrite Hcur. destruct q as [ps0 st f]. simpl in Hps. subst ps0.
    assert (next_has_pages
      {| queryKey := queryKey s;
         queries := <[queryKey s := Query (Some ps) st FetchingNext]> (queries s);
         previous := previous s;
         inflight := inflight s
                     ++ [Request (queryKey s) true (default 1%nat (nextPageParam (Some ps)))];
         deps := deps s |}).
    { apply next_has_pages_insert; [done|]. by eexists. }
    destruct ps as [|pg ps]; destruct (nextPageParam _); done.
  - exact Hs.
Qed.

Lemma next_has_pages_run evs s :
  callback_has_pages s → next_has_pages s → next_has_pages (run evs s).
Proof.
  revert s. induction evs as [|e evs IH]; intros s Hcb Hs; [done|].
  apply (IH (step s e)); [by apply callback_has_pages_step|by apply next_has_pages_step].
Qed.

Lemma next_has_pages_mount key evs : next_has_pages (run evs (@mount Product key)).
Proof.
  apply next_has_pages_run; [done|].
  intros k ps st. simpl. destruct (decide (key = k)) as [->|Hne].
  - by rewrite lookup_singleton_eq.
  - by rewrite lookup_singleton_ne.
Qed.

Lemma current_fetching_next s :
  isFetchingNextPage s = true →
  ∃ ps st, queries s !! queryKey s = Some (Query ps st FetchingNext).
Proof.
  unfold isFetchingNextPage, current.
  destruct (queries s !! queryKey s) as [[ps st [| |]]|]; try done. by eauto.
Qed.

Lemma nextPageParam_snoc (ps : list (PaginatedResponse Product)) pg :
  nextPageParam (Some (ps ++ [pg])) = getNextPageParam pg.
Proof. unfold nextPageParam. by rewrite last_snoc. Qed.

(** X12. When the page that is being fetched by [fetchNextPage] arrives, its
    items are appended after the items shown, none of which is lost or
    moved; the page is no longer fetching, and whether another page can be
    loaded is what the [hasNextPage] field of the page that arrived says. *)
Theorem next_page_is_appended key0 evs (pg : PaginatedResponse Product) :
  let s := run evs (mount key0) in
  isFetchingNextPage s = true →
  let s' := resolve (queryKey s) pg s in
  products s' = products s ++ data pg
  ∧ isFetchingNextPage s' = false
  ∧ hasNextPage s' = pg_hasNextPage pg
  ∧ isError s' = false ∧ isLoading s' = false.
Proof.
  intros s Hf s'.
  assert (Hwf : next_has_pages s) by apply next_has_pages_mount.
  clearbody s.
  destruct (current_fetching_next s Hf) as (ps0 & st & Hq).
  destruct (Hwf _ _ _ Hq) as [ps ->].
  assert (Hprod : products s = flat_map data ps).
  { unfold products, result_data, isPreviousData, current. by rewrite Hq. }
  assert (Hcur : current s' = Some (Query (Some (ps ++ [pg])) Success Idle)).
  { unfold s', resolve, current. rewrite Hq. simpl. apply lookup_insert_eq. }
  split_and!.
  - rewrite Hprod. unfold products, result_data, isPreviousData. rewrite Hcur. simpl.
    rewrite flat_map_app. simpl. by rewrite app_nil_r.
  - unfold isFetchingNextPage. by rewrite Hcur.
  - unfold hasNextPage. rewrite Hcur. cbn [q_pages]. rewrite nextPageParam_snoc.
    unfold getNextPageParam. by destruct (pg_hasNextPage pg).
  - unfold isError, result_status, isPreviousData. by rewrite Hcur.
  - unfold isLoading, result_status, isPreviousData. by rewrite Hcur.
Qed.

(** X13. When [loadNextPage] is invoked and its guard holds, one request is
    issued, for the query shown and for the page that follows the last page
    loaded ([lastPage.page + 1]); the page is then fetching its next page and
    the items shown are unchanged. *)
Theorem loadNextPage_requests_following_page s :
  hasNextPage s = true →
  isFetchingNextPage s = false →
  let s' := loadNextPage (hasNextPage s) (isFetchingNextPage s) s in
  ∃ ps lastPage st f,
    current s = Some (Query (Some ps) st f)
    ∧ last ps = Some lastPage
    ∧ pg_hasNextPage lastPage = true
    ∧ inflight s' = inflight s ++ [Request (queryKey s) true (page lastPage + 1)]
    ∧ isFetchingNextPage s' = true
    ∧ products s' = products s.
Proof.
  intros Hn Hf s'. unfold s', loadNextPage. rewrite Hn, Hf. cbn [andb negb].
  unfold hasNextPage in Hn. unfold fetchNextPage.
  destruct (current s) as [[ps st f]|] eqn:Hcur; [|done].
  apply bool_decide_eq_true in Hn as [n Hn]. cbn [q_pages] in Hn.
  destruct ps as [ps|]; [|done].
  assert (Hlast : ∃ lastPage, last ps = Some lastPage ∧ pg_hasNextPage lastPage = true
                              ∧ n = (page lastPage + 1)%nat).
  { unfold nextPageParam in Hn. destruct (last ps) as [lp|]; [|done].
    exists lp. unfold getNextPageParam in Hn.
    destruct (pg_hasNextPage lp); [|done]. by injection Hn as <-. }
  destruct Hlast as (lp & Hlast & Hflag & ->).
  exists ps, lp, st, f.
  assert (Hnew : ∀ s1, s1 = {| queryKey := queryKey s;
             queries := <[queryKey s := Query (Some ps) st FetchingNext]> (queries s);
             previous := previous s;
             inflight := inflight s ++ [Request (queryKey s) true (page lp + 1)];
             deps := deps s |} →
           inflight s1 = inflight s ++ [Request (queryKey s) true (page lp + 1)]
           ∧ isFetchingNextPage s1 = true ∧ products s1 = products s).
  { intros s1 ->. split; [done|].
    assert (Hc1 : current
              {| queryKey := queryKey s;
                 queries := <[queryKey s := Query (Some ps) st FetchingNext]> (queries s);
                 previous := previous s;
                 inflight := inflight s ++ [Request (queryKey s) true (page lp + 1)];
                 deps := deps s |}
            = Some (Query (Some ps) st FetchingNext)).
    { unfold current. simpl. apply lookup_insert_eq. }
    split.
    - unfold isFetchingNextPage. by rewrite Hc1.
    - unfold products, result_data, isPreviousData. rewrite Hc1, Hcur. done. }
  destruct ps as [|pg0 ps']; [done|]. rewrite Hn. cbn [default].
  destruct (Hnew _ eq_refl) as (Hi & Hfn & Hp). by split_and!.
Qed.

(** X14. When the fetch that is running for the query shown fails, the page
    renders the error state in place of the list, also when the fetch was for
    a further page and items are loaded; in that case the items stay in the
    collection, and in both cases no fetch is running any more. *)
Theorem failed_fetch_renders_error_state key0 evs :
  let s := run evs (mount key0) in
  isFetching s = true →
  let s' := reject (queryKey s) s in
  render s' = ErrorState
  ∧ isFetching s' = false
  ∧ (isFetchingNextPage s = true → products s' = products s).
Proof.
  intros s Hf s'.
  assert (Hwf : next_has_pages s) by apply next_has_pages_mount.
  clearbody s. unfold isFetching, current in Hf.
  destruct (queries s !! queryKey s) as [[ps st f]|] eqn:Hq; [|done].
  assert (Hcur : current s' = Some (Query ps Error Idle)).
  { unfold s', reject, current. rewrite Hq.
    destruct f; [done| |]; simpl; apply lookup_insert_eq. }
  assert (Hip : isPreviousData s' = false).
  { unfold isPreviousData. rewrite Hcur. cbn [q_status is_error negb].
    by rewrite andb_false_r. }
  split_and!.
  - unfold render, isError, result_status. by rewrite Hcur, Hip.
  - unfold isFetching. by rewrite Hcur.
  - intros Hn. destruct (current_fetching_next s Hn) as (ps0 & st0 & Hq0).
    rewrite Hq in Hq0. injection Hq0 as -> -> ->.
    destruct (Hwf _ _ _ Hq) as [pages ->].
    unfold products, result_data. rewrite Hcur, Hip.
    unfold isPreviousData, current. by rewrite Hq.
Qed.

End Page.

Lemma loadNextPage_requests_following_page_witness :
  let s : state N :=
    run [Resolve "name-asc" (Page [1; 2] 40 1 true)] (mount "name-asc") in
  let s' := loadNextPage (hasNextPage s) (isFetchingNextPage s) s in
  (hasNextPage s = true ∧ isFetchingNextPage s = false)
  ∧ ∃ ps lastPage st f,
      current s = Some (Query (Some ps) st f)
      ∧ last ps = Some lastPage
      ∧ pg_hasNextPage lastPage = true
      ∧ inflight s' = inflight s ++ [Request (queryKey s) true (page lastPage + 1)]
      ∧ isFetchingNextPage s' = true
      ∧ products s' = products s.
Proof.
  intros s s'. split; [split; reflexivity|].
  apply (loadNextPage_requests_following_page s); reflexivity.
Defined.

Lemma failed_fetch_renders_error_state_witness :
  let evs : list (event N) :=
    [Resolve "name-asc" (Page [1; 2] 40 1 true); Render; LoadNextPage] in
  let s := run evs (mount "name-asc") in
  let s' := reject (queryKey s) s in
  isFetching s = true
  ∧ (render s' = ErrorState
     ∧ isFetching s' = false
     ∧ (isFetchingNextPage s = true → products s' = products s)).
Proof.
  intros evs s s'. split; [reflexivity|].
  apply (failed_fetch_renders_error_state "name-asc" evs). reflexivity.
Defined.

Lemma next_page_is_appended_witness :
  let evs : list (event N) :=
    [Resolve "name-asc" (Page [1; 2] 40 1 true); Render; LoadNextPage] in
  let pg := Page [3; 4] 40 2 false in
  let s := run evs (mount "name-asc") in
  let s' := resolve (queryKey s) pg s in
  isFetchingNextPage s = true
  ∧ (products s' = products s ++ data pg
     ∧ isFetchingNextPage s' = false
     ∧ hasNextPage s' = pg_hasNextPage pg
     ∧ isError s' = false ∧ isLoading s' = false).
Proof.
  intros evs pg s s'. split; [reflexivity|].
  apply (next_page_is_appended "name-asc" evs pg). reflexivity.
Defined.

End PageFacts.

(** ** The keyboard navigation of [SearchBar] *)

Module SearchBarFacts.
Import JS SearchBar.
Local Open Scope Z_scope.

Section Bar.
Context {Product : Type} (name : Product → jsstring).
Implicit Types (s : state) (results : list Product).

Lemma handleKeyDown_in_range k results s :
  in_range results s →
  ∃ s' selected,
    handleKeyDown name k results s = Some (s', selected)
    ∧ in_range results s'
    ∧ ∀ p, selected = Some p → p ∈ results.
Proof.
  unfold in_range. intros Hs. unfold handleKeyDown.
  destruct (negb (isOpen s) || (length results =? 0)%nat) eqn:Hg.
  { exists s, None. split; [done|]. split; [done|]. by intros p [=]. }
  apply orb_false_iff in Hg as [_ Hn]. apply Nat.eqb_neq in Hn.
  destruct k.
  - eexists _, None. split; [reflexivity|]. split; [|by intros p [=]]. simpl.
    destruct (Z.ltb_spec (selectedIndex s) (Z.of_nat (length results) - 1)); lia.
  - eexists _, None. split; [reflexivity|]. split; [|by intros p [=]]. simpl.
    destruct (Z.gtb_spec (selectedIndex s) 0); lia.
  - destruct (Z.geb_spec (selectedIndex s) 0) as [Hge|Hlt].
    + destruct (lookup_lt_is_Some_2 results (Z.to_nat (selectedIndex s))) as [p Hp]; [lia|].
      rewrite Hp. simpl. eexists _, (Some p). split; [reflexivity|].
      split; [simpl; lia|].
      intros p' [= <-]. by eapply list_elem_of_lookup_2.
    + exists s, None. split; [done|]. split; [done|]. by intros p [=].
  - eexists _, None. split; [reflexivity|]. split; [simpl; lia|by intros p [=]].
  - exists s, None. split; [done|]. split; [done|]. by intros p [=].
Qed.

(** X18. While the results shown stay the same, and starting with no result
    selected or with one of them selected: whatever the user types and
    whatever keys are pressed, no handler throws, the selected index stays
    between -1 and the index of the last result, and every product passed to
    [onSearchSelect] is one of the results. *)
Theorem keyboard_selection_stays_in_range results evs s :
  -1 ≤ selectedIndex s < Z.of_nat (length results) →
  ∃ s' selected,
    run name evs results s = Some (s', selected)
    ∧ -1 ≤ selectedIndex s' < Z.of_nat (length results)
    ∧ ∀ p, p ∈ selected → p ∈ results.
Proof.
  revert s. induction evs as [|[value|k] evs IH]; intros s Hs.
  - exists s, []. split; [done|]. split; [done|]. intros p Hp. by apply elem_of_nil in Hp.
  - cbn [run]. apply IH. simpl. lia.
  - cbn [run].
    destruct (handleKeyDown_in_range k results s Hs) as (s1 & sel & -> & Hs1 & Hsel).
    destruct (IH s1 Hs1) as (s2 & l & -> & Hs2 & Hl).
    exists s2, (option_list sel ++ l). split; [done|]. split; [done|].
    intros p Hp. apply elem_of_app in Hp as [Hp|Hp]; [|by apply Hl].
    destruct sel as [p'|]; simpl in Hp; [|by apply elem_of_nil in Hp].
    apply list_elem_of_singleton in Hp as ->. by apply Hsel.
Qed.

Lemma press_ArrowDown results s (k : nat) :
  isOpen s = true → 0 ≤ selectedIndex s < Z.of_nat (length results) →
  press name k ArrowDown results s
  = State (query s) (isOpen s) ((selectedIndex s + Z.of_nat k) mod Z.of_nat (length results)).
Proof.
  revert s. induction k as [|k IH]; intros s Ho Hs.
  - simpl. rewrite Z.add_0_r, Z.mod_small by lia. by destruct s.
  - cbn [press]. unfold handleKeyDown. rewrite Ho. cbn [negb orb].
    destruct (Nat.eqb_spec (length results) 0) as [H0|_]; [lia|].
    set (n := Z.of_nat (length results)) in *.
    destruct (Z.ltb_spec (selectedIndex s) (n - 1)) as [Hlt|Hge].
    + rewrite IH by (simpl; first [done|lia]). simpl. do 2 f_equal. lia.
    + rewrite IH by (simpl; first [done|lia]). simpl. f_equal.
      replace (selectedIndex s + Z.of_nat (S k)) with (Z.of_nat k + 1 * n) by lia.
      rewrite Z_mod_plus_full. done.
Qed.

Lemma press_ArrowUp results s (k : nat) :
  isOpen s = true → 0 ≤ selectedIndex s < Z.of_nat (length results) →
  press name k ArrowUp results s
  = State (query s) (isOpen s) ((selectedIndex s - Z.of_nat k) mod Z.of_nat (length results)).
Proof.
  revert s. induction k as [|k IH]; intros s Ho Hs.
  - simpl. rewrite Z.sub_0_r, Z.mod_small by lia. by destruct s.
  - cbn [press]. unfold handleKeyDown. rewrite Ho. cbn [negb orb].
    destruct (Nat.eqb_spec (length results) 0) as [H0|_]; [lia|].
    set (n := Z.of_nat (length results)) in *.
    destruct (Z.gtb_spec (selectedIndex s) 0) as [Hgt|Hle].
    + rewrite IH by (simpl; first [done|lia]). simpl. do 2 f_equal. lia.
    + rewrite IH by (simpl; first [done|lia]). simpl. f_equal.
      replace (n - 1 - Z.of_nat k) with (selectedIndex s - Z.of_nat (S k) + 1 * n) by lia.
      rewrite Z_mod_plus_full. done.
Qed.

(** X19. With the list open and a result selected, the arrow keys move the
    selection around the results: [k] presses of ArrowDown move it [k]
    places forward and [k] presses of ArrowUp [k] places backward, both
    modulo the number of results; as many presses of ArrowDown as there are
    results bring the selection back, and ArrowUp undoes ArrowDown. *)
Theorem arrow_keys_cycle_through_results results s (k : nat) :
  isOpen s = true →
  0 ≤ selectedIndex s < Z.of_nat (length results) →
  selectedIndex (press name k ArrowDown results s)
  = (selectedIndex s + Z.of_nat k) mod Z.of_nat (length results)
  ∧ selectedIndex (press name k ArrowUp results s)
    = (selectedIndex s - Z.of_nat k) mod Z.of_nat (length results)
  ∧ press name (length results) ArrowDown results s = s
  ∧ press name 1 ArrowUp results (press name 1 ArrowDown results s) = s.
Proof.
  intros Ho Hs. set (n := Z.of_nat (length results)) in *.
  assert (Hmod : ∀ z, 0 ≤ z mod n < n) by (intros z; apply Z.mod_pos_bound; lia).
  split_and!.
  - by rewrite press_ArrowDown.
  - by rewrite press_ArrowUp.
  - rewrite press_ArrowDown by done. fold n.
    replace (selectedIndex s + n) with (selectedIndex s + 1 * n) by lia.
    rewrite Z_mod_plus_full, Z.mod_small by lia. by destruct s.
  - rewrite (press_ArrowDown results s 1) by done. fold n.
    rewrite press_ArrowUp by (simpl; first [done|apply Hmod]). simpl. fold n.
    rewrite Zminus_mod_idemp_l.
    rewrite Z.mod_small by lia. destruct s; simpl; f_equal; lia.
Qed.

End Bar.

Lemma keyboard_selection_stays_in_range_witness :
  let results : list N := [7; 8; 9]%N in
  let name : N → jsstring := λ p, [p]%N in
  let evs := [Input (lit "tv"); Key ArrowDown; Key ArrowUp; Key Enter; Key ArrowUp] in
  -1 ≤ selectedIndex (initial : state) < Z.of_nat (length results)
  ∧ ∃ s' selected,
      run name evs results initial = Some (s', selected)
      ∧ -1 ≤ selectedIndex s' < Z.of_nat (length results)
      ∧ ∀ p, p ∈ selected → p ∈ results.
Proof.
  intros results name evs. split; [simpl; lia|].
  apply (keyboard_selection_stays_in_range name results evs initial). simpl. lia.
Defined.

Lemma arrow_keys_cycle_through_results_witness :
  let results : list N := [7; 8; 9]%N in
  let name : N → jsstring := λ p, [p]%N in
  let s := State (lit "tv") true 2 in
  (isOpen s = true ∧ 0 ≤ selectedIndex s < Z.of_nat (length results))
  ∧ (selectedIndex (press name 5 ArrowDown results s)
     = (selectedIndex s + Z.of_nat 5) mod Z.of_nat (length results)
     ∧ selectedIndex (press name 5 ArrowUp results s)
       = (selectedIndex s - Z.of_nat 5) mod Z.of_nat (length results)
     ∧ press name (length results) ArrowDown results s = s
     ∧ press name 1 ArrowUp results (press name 1 ArrowDown results s) = s).
Proof.
  intros results name s. split; [split; [reflexivity|simpl; lia]|].
  apply (arrow_keys_cycle_through_results name results s 5); [reflexivity|simpl; lia].
Defined.

End SearchBarFacts.
